(** * bigfilestat: a shallow embedding of [mod file_stat] (src/main.rs)

    An [f64] is a primitive float of the kernel ([PrimFloat.float]): its
    arithmetic is IEEE-754 binary64 with rounding to nearest, ties to even,
    as Rust's.  The kernel has a single NaN; it is modelled as the positive
    quiet NaN that Rust's parser gives for ["NaN"].

    A source (the content of the file) is a list of bytes.  Opening and
    reading the file are outside the model: the I/O errors of [File::open]
    and of the reader do not arise.  Errors are those of the code:
    [String::from_utf8] and [str::parse::<f64>] inside [for_file], and the
    [expect] of [median], a panic. *)

From Stdlib Require Import ZArith List Bool Floats Lia.
From Stdlib Require Import Strings.String Strings.Byte.
Import ListNotations.

(* ------------------------------------------------------------------ *)
(** ** Results: [Result<T, Box<dyn Error>>], and panics *)

Inductive error : Type :=
| Utf8Error        (** [FromUtf8Error] of [String::from_utf8] *)
| ParseFloatError. (** [ParseFloatError] of [str::parse::<f64>] *)

Inductive run (A : Type) : Type :=
| Ok (a : A)
| Err (e : error)
| Panic (msg : string).
Arguments Ok {A} a.
Arguments Err {A} e.
Arguments Panic {A} msg.

(** The [?] operator. *)
Definition bind {A B : Type} (m : run A) (k : A -> run B) : run B :=
  match m with
  | Ok a => k a
  | Err e => Err e
  | Panic s => Panic s
  end.

Notation "x <- m ;; k" := (bind m (fun x => k))
  (at level 61, m at next level, right associativity).

(* ------------------------------------------------------------------ *)
(** ** [reader.split(' ' as u8)] *)

Definition space : N := 32%N.

(** [BufRead::split]: each [read_until] reads up to and including the
    delimiter, which is then dropped; a read of zero bytes ends the
    iteration, so a trailing delimiter gives no empty last segment. *)
Fixpoint split_aux (cur : list N) (bs : list N) : list (list N) :=
  match bs with
  | [] => match cur with [] => [] | _ :: _ => [rev cur] end
  | b :: bs' =>
      if N.eqb b space then rev cur :: split_aux [] bs'
      else split_aux (b :: cur) bs'
  end.

Definition split_space (bs : list N) : list (list N) := split_aux [] bs.

(* ------------------------------------------------------------------ *)
(** ** [String::from_utf8]: well-formed UTF-8 only *)

Definition in_range (lo hi b : N) : bool := N.leb lo b && N.leb b hi.
Definition cont (b : N) : bool := in_range 128 191 b.

Fixpoint utf8_valid (bs : list N) : bool :=
  match bs with
  | [] => true
  | b0 :: r0 =>
      if N.ltb b0 128 then utf8_valid r0
      else if in_range 194 223 b0 then
        match r0 with
        | b1 :: r1 => cont b1 && utf8_valid r1
        | _ => false
        end
      else if in_range 224 239 b0 then
        match r0 with
        | b1 :: b2 :: r2 =>
            (if N.eqb b0 224 then in_range 160 191 b1
             else if N.eqb b0 237 then in_range 128 159 b1
             else cont b1) && cont b2 && utf8_valid r2
        | _ => false
        end
      else if in_range 240 244 b0 then
        match r0 with
        | b1 :: b2 :: b3 :: r3 =>
            (if N.eqb b0 240 then in_range 144 191 b1
             else if N.eqb b0 244 then in_range 128 143 b1
             else cont b1) && cont b2 && cont b3 && utf8_valid r3
        | _ => false
        end
      else false
  end.

Definition from_utf8 (bs : list N) : option (list N) :=
  if utf8_valid bs then Some bs else None.

(* ------------------------------------------------------------------ *)
(** ** [str::parse::<f64>]

    The grammar of [f64::from_str]:
    [Sign? ('inf' | 'infinity' | 'nan' | Number)], the three words in any
    case, [Number ::= (Digit+ | Digit+ '.' Digit* | Digit* '.' Digit+) Exp?],
    [Exp ::= ('e' | 'E') Sign? Digit+]; nothing else, no white space.
    The value is the decimal rounded once to the nearest binary64. *)

Definition is_digit (b : N) : bool := in_range 48 57 b.

Definition to_lower (b : N) : N := if in_range 65 90 b then (b + 32)%N else b.

Fixpoint take_digits (bs : list N) : list N * list N :=
  match bs with
  | b :: r => if is_digit b then let '(d, r') := take_digits r in (b :: d, r')
              else ([], bs)
  | [] => ([], [])
  end.

Definition digits_value (ds : list N) : Z :=
  fold_left (fun acc d => (10 * acc + Z.of_N (d - 48))%Z) ds 0%Z.

Definition word (s : string) : list N := map Byte.to_N (list_byte_of_string s).

Fixpoint bytes_eqb (a b : list N) : bool :=
  match a, b with
  | [], [] => true
  | x :: a', y :: b' => N.eqb x y && bytes_eqb a' b'
  | _, _ => false
  end.

Definition sign_of (bs : list N) : bool * list N :=
  match bs with
  | 43%N :: r => (false, r)
  | 45%N :: r => (true, r)
  | _ => (false, bs)
  end.

(** Exponent part: [None] when malformed. *)
Definition parse_exp (bs : list N) : option Z :=
  match bs with
  | [] => Some 0%Z
  | e :: r =>
      if N.eqb (to_lower e) 101 then
        let '(neg, r1) := sign_of r in
        let '(ds, r2) := take_digits r1 in
        match ds, r2 with
        | _ :: _, [] => Some (if neg then - digits_value ds else digits_value ds)%Z
        | _, _ => None
        end
      else None
  end.

(** [m * 10^e], rounded to nearest-even, as a binary64. *)
Definition decimal_to_sf (neg : bool) (m e : Z) : spec_float :=
  if Z.eqb m 0 then S754_zero neg
  else if Z.leb 0 e then
    let f := binary_normalize prec emax (m * 10 ^ e) 0 false in
    if neg then SFopp f else f
  else
    let '(mz, ez, lz) := SFdiv_core_binary prec emax m 0 (10 ^ (- e)) 0 in
    binary_round_aux prec emax neg mz ez lz.

Definition parse_number (neg : bool) (bs : list N) : option float :=
  let '(int, r1) := take_digits bs in
  let '(frac, r2) :=
    match r1 with
    | 46%N :: r => take_digits r
    | _ => ([], r1)
    end in
  match int ++ frac with
  | [] => None
  | ds =>
      match parse_exp r2 with
      | None => None
      | Some ex =>
          let e := (ex - Z.of_nat (List.length frac))%Z in
          Some (SF2Prim (decimal_to_sf neg (digits_value ds) e))
      end
  end.

Definition parse_f64 (bs : list N) : option float :=
  let '(neg, r) := sign_of bs in
  let low := map to_lower r in
  if bytes_eqb low (word "inf") || bytes_eqb low (word "infinity")
  then Some (if neg then neg_infinity else infinity)
  else if bytes_eqb low (word "nan") then Some nan
  else parse_number neg r.

(** [String::from_utf8(data?)?.parse::<f64>()?] *)
Definition parse_token (t : list N) : run float :=
  match from_utf8 t with
  | None => Err Utf8Error
  | Some s =>
      match parse_f64 s with
      | None => Err ParseFloatError
      | Some x => Ok x
      end
  end.

(* ------------------------------------------------------------------ *)
(** ** [for_file]: the scan engine

    The closure's captured accumulators are the state [S]; [action] is the
    step on that state.  The first token that fails ends the scan with its
    error. *)

Fixpoint for_tokens {S : Type} (toks : list (list N)) (action : S -> float -> S)
    (s : S) : run S :=
  match toks with
  | [] => Ok s
  | t :: ts => x <- parse_token t ;; for_tokens ts action (action s x)
  end.

Definition for_file {S : Type} (src : list Byte.byte) (action : S -> float -> S)
    (s0 : S) : run S :=
  for_tokens (split_space (map Byte.to_N src)) action s0.

(** The stream of values a source denotes: what [for_file] hands to its
    action, in order. *)
Definition values (src : list Byte.byte) : run (list float) :=
  for_file src (fun acc x => acc ++ [x]) [].

(* ------------------------------------------------------------------ *)
(** ** f64 helpers used by the code *)

Open Scope float_scope.

(** [f64::min] / [f64::max]: IEEE minNum / maxNum, a NaN operand gives the
    other operand.  Which of two equal operands (such as [-0.0] and [0.0])
    is returned is not specified by Rust; here the receiver. *)
Definition fmin (x y : float) : float :=
  if is_nan x then y else if is_nan y then x else if y <? x then y else x.
Definition fmax (x y : float) : float :=
  if is_nan x then y else if is_nan y then x else if x <? y then y else x.

(** [f64::total_cmp]: IEEE 754 totalOrder; [-0.0 < 0.0], the (positive) NaN
    above [+inf]. *)
Definition total_cmp (x y : float) : comparison :=
  match Prim2SF x, Prim2SF y with
  | S754_nan, S754_nan => Eq
  | S754_nan, _ => Gt
  | _, S754_nan => Lt
  | S754_zero true, S754_zero false => Lt
  | S754_zero false, S754_zero true => Gt
  | fx, fy => match SFcompare fx fy with Some c => c | None => Eq end
  end.

(** [n as f64] for the counters ([u64], [usize]) below 2^63. *)
Definition as_f64 (n : nat) : float := of_uint63 (Uint63.of_Z (Z.of_nat n)).

Definition unwrap_or (o : option float) (d : float) : float :=
  match o with Some v => v | None => d end.

Definition zip (a b : option float) : option (float * float) :=
  match a, b with Some x, Some y => Some (x, y) | _, _ => None end.

(** [0.001]: the literal of [find_median], the nearest binary64. *)
Definition tolerance : float := 0x1.0624dd2f1a9fcp-10.

(* ------------------------------------------------------------------ *)
(** ** The statistics *)

Definition min_max (src : list Byte.byte) : run (option (float * float)) :=
  st <- for_file src
          (fun '(val_min, val_max) x =>
             (Some (fmin x (unwrap_or val_min x)),
              Some (fmax x (unwrap_or val_max x))))
          (None, None) ;;
  let '(val_min, val_max) := st in
  Ok (zip val_min val_max).

Definition len (src : list Byte.byte) : run nat :=
  for_file src (fun size _ => S size) O.

Definition average (src : list Byte.byte) : run float :=
  st <- for_file src (fun '(sum, l) x => (sum + x, S l)) (0, O) ;;
  let '(sum, l) := st in
  Ok (sum / as_f64 l).

(** [(x - x_avr).powi(2)] is one rounded product. *)
Definition dispersion (src : list Byte.byte) : run float :=
  x_avr <- average src ;;
  st <- for_file src (fun '(sum, l) x => (sum + (x - x_avr) * (x - x_avr), S l))
          (0, O) ;;
  let '(sum, l) := st in
  Ok (sum / as_f64 l).

(** The three [i64] counters. *)
Definition count_step (val : float) (c : Z * Z * Z) (x : float) : Z * Z * Z :=
  let '(less, eq, greater) := c in
  match total_cmp x val with
  | Lt => ((less + 1)%Z, eq, greater)
  | Eq => (less, (eq + 1)%Z, greater)
  | Gt => (less, eq, (greater + 1)%Z)
  end.

Definition is_median (src : list Byte.byte) (val : float) : run comparison :=
  c <- for_file src (count_step val) (0%Z, 0%Z, 0%Z) ;;
  let '(less, eq, greater) := c in
  if Z.ltb (Z.abs (greater - less)) (eq + 1) then Ok Eq
  else if Z.ltb greater less then Ok Lt
  else Ok Gt.

(** [find_median] recurses without a bound; [fuel] counts the calls,
    and [None] means that [fuel] calls did not reach a result. *)
Fixpoint find_median (fuel : nat) (src : list Byte.byte) (left right : float)
    : option (run float) :=
  match fuel with
  | O => None
  | S fuel' =>
      if abs (left - right) <=? tolerance then Some (Ok left)
      else
        let mid := (right + left) / 2 in
        match is_median src mid with
        | Ok Lt => find_median fuel' src left mid
        | Ok Eq => find_median fuel' src left mid
        | Ok Gt => find_median fuel' src mid right
        | Err e => Some (Err e)
        | Panic m => Some (Panic m)
        end
  end.

Definition median (fuel : nat) (src : list Byte.byte) : option (run float) :=
  match min_max src with
  | Ok None => Some (Panic "median requires 1+ value"%string)
  | Ok (Some (mn, mx)) => find_median fuel src mn mx
  | Err e => Some (Err e)
  | Panic m => Some (Panic m)
  end.

(** [tails]: a [Vec] and a [VecDeque], both as lists, front first. *)
Definition tails_step (k : nat) (st : list float * list float) (x : float)
    : list float * list float :=
  let '(left_, right_) := st in
  let left' := if Nat.ltb (List.length left_) k then left_ ++ [x] else left_ in
  let right1 := right_ ++ [x] in
  let right' := if Nat.ltb k (List.length right1) then List.tl right1 else right1 in
  (left', right').

Definition tails (src : list Byte.byte) (k : nat) : run (list float * list float) :=
  for_file src (tails_step k) ([], []).

(* ------------------------------------------------------------------ *)
(** ** [main]: the report on one file *)

(** The lines [main] prints, by the values they show.  The durations that
    [elapsed()] adds to each line come from the clock and are left out, and
    so is the text layout of [println!] ([{:?}], [{:.3?}]). *)
Inductive line : Type :=
| LEN_line (n : nat)
| MIN_MAX_line (mn mx : float)
| AVERAGE_line (a : float)
| DISPERSION_line (d : float)
| MEDIAN_line (m : float)
| LEFT_TAIL_line (l : list float)
| RIGHT_TAIL_line (l : list float)
| TIME_TOOK_line.

(** Standard output so far, and how the program goes on: [None] when a call
    does not return. *)
Definition io (A : Type) : Type := list line -> list line * option (run A).

Definition io_ret {A : Type} (a : A) : io A := fun out => (out, Some (Ok a)).

Definition io_bind {A B : Type} (m : io A) (k : A -> io B) : io B := fun out =>
  match m out with
  | (out', Some (Ok a)) => k a out'
  | (out', Some (Err e)) => (out', Some (Err e))
  | (out', Some (Panic s)) => (out', Some (Panic s))
  | (out', None) => (out', None)
  end.

Notation "x <~ m ;; k" := (io_bind m (fun x => k))
  (at level 61, m at next level, right associativity).

Definition io_lift {A : Type} (r : option (run A)) : io A := fun out => (out, r).

Definition println (l : line) : io unit := fun out => (out ++ [l], Some (Ok tt)).

(** [Option::expect] *)
Definition expect {A : Type} (o : option A) (msg : string) : io A :=
  io_lift (Some (match o with Some a => Ok a | None => Panic msg end)).

(** [main] on a file with contents [src]; [fuel] bounds the calls of
    [find_median] as in [median]. *)
Definition main (fuel : nat) (src : list Byte.byte) : io unit :=
  n <~ io_lift (Some (len src)) ;;
  _ <~ println (LEN_line n) ;;
  mm <~ io_lift (Some (min_max src)) ;;
  p <~ expect mm "no values" ;;
  _ <~ println (MIN_MAX_line (fst p) (snd p)) ;;
  a <~ io_lift (Some (average src)) ;;
  _ <~ println (AVERAGE_line a) ;;
  d <~ io_lift (Some (dispersion src)) ;;
  _ <~ println (DISPERSION_line d) ;;
  m <~ io_lift (median fuel src) ;;
  _ <~ println (MEDIAN_line m) ;;
  t <~ io_lift (Some (tails src 10000)) ;;
  _ <~ println (LEFT_TAIL_line (firstn 10 (fst t))) ;;
  _ <~ println (RIGHT_TAIL_line (firstn 10 (rev (snd t)))) ;;
  _ <~ println TIME_TOOK_line ;;
  io_ret tt.

(* ------------------------------------------------------------------ *)
(** ** The tokens of a source and the values they parse to *)

Fixpoint parse_all (toks : list (list N)) : run (list float) :=
  match toks with
  | [] => Ok []
  | t :: ts => x <- parse_token t ;; xs <- parse_all ts ;; Ok (x :: xs)
  end.

Definition tokens (src : list Byte.byte) : list (list N) :=
  split_space (map Byte.to_N src).

(* ------------------------------------------------------------------ *)
(** ** Concrete sources *)

Definition src_of (s : string) : list Byte.byte := list_byte_of_string s.

Definition byte_lf : Byte.byte := Byte.x0a.

Close Scope float_scope.

(* ------------------------------------------------------------------ *)
(** ** Vocabulary of the statements *)

(** Every statistic of [file_stat] fails with the error [e]. *)
Definition all_statistics_fail (src : list Byte.byte) (e : error) : Prop :=
  values src = Err e /\ len src = Err e /\ min_max src = Err e /\
  average src = Err e /\ dispersion src = Err e /\
  (forall fuel, median fuel src = Some (Err e)) /\
  (forall k, tails src k = Err e).

(** The space-delimited tokens of the spec: the pieces between
    consecutive spaces, from the start to the end of the source (so [n]
    spaces give [n + 1] pieces). *)
Fixpoint spec_pieces_aux (cur : list N) (bs : list N) : list (list N) :=
  match bs with
  | [] => [rev cur]
  | b :: bs' =>
      if N.eqb b space then rev cur :: spec_pieces_aux [] bs'
      else spec_pieces_aux (b :: cur) bs'
  end.

Definition spec_space_delimited_tokens (src : list Byte.byte) : list (list N) :=
  spec_pieces_aux [] (map Byte.to_N src).

(** Tokens put back together, a space between two of them. *)
Fixpoint join_space (ts : list (list N)) : list N :=
  match ts with
  | [] => []
  | [t] => t
  | t :: ts' => t ++ space :: join_space ts'
  end.

(** The bytes a float literal of [f64::from_str] can contain: digits,
    signs, the point, the exponent letter, and the letters of [inf],
    [infinity] and [nan] in either case. *)
Definition float_literal_byte (b : N) : bool :=
  is_digit b || N.eqb b 43 || N.eqb b 45 || N.eqb b 46 ||
  existsb (N.eqb (to_lower b)) (word "eiinfinitynan").

(** The number of values [x] with [total_cmp x mid = c]. *)
Definition cmp_is (c : comparison) (mid x : float) : bool :=
  match total_cmp x mid, c with
  | Lt, Lt | Eq, Eq | Gt, Gt => true
  | _, _ => false
  end.

Definition count_cmp (c : comparison) (mid : float) (xs : list float) : Z :=
  Z.of_nat (List.length (filter (cmp_is c mid) xs)).

(** One call of [find_median] that does not stop: the interval of the
    recursive call. *)
Definition bisect_step (src : list Byte.byte) (left right : float)
    : run (float * float) :=
  let mid := ((right + left) / 2)%float in
  o <- is_median src mid ;;
  match o with
  | Lt | Eq => Ok (left, mid)
  | Gt => Ok (mid, right)
  end.

(** The intervals the recursion goes through from [(left, right)]. *)
Inductive bisect_reach (src : list Byte.byte)
    : float -> float -> float -> float -> Prop :=
| bisect_here l r : bisect_reach src l r l r
| bisect_next l r l' r' l'' r'' :
    (abs (l - r) <=? tolerance)%float = false ->
    bisect_step src l r = Ok (l', r') ->
    bisect_reach src l' r' l'' r'' ->
    bisect_reach src l r l'' r''.

(** Non-NaN binary64 values in IEEE order, as triples of integers compared
    lexicographically: class (-inf, negative, zero, positive, +inf), then
    exponent, then mantissa, negated for negative values. *)
Definition sf_key (f : spec_float) : Z * Z * Z :=
  match f with
  | S754_infinity true => (0, 0, 0)%Z
  | S754_finite true m e => (1, - e, - Zpos m)%Z
  | S754_zero _ => (2, 0, 0)%Z
  | S754_finite false m e => (3, e, Zpos m)%Z
  | S754_infinity false => (4, 0, 0)%Z
  | S754_nan => (5, 0, 0)%Z
  end.

Definition lex3 (a b : Z * Z * Z) : comparison :=
  let '(a1, a2, a3) := a in
  let '(b1, b2, b3) := b in
  match Z.compare a1 b1 with
  | Eq => match Z.compare a2 b2 with Eq => Z.compare a3 b3 | c => c end
  | c => c
  end.

Definition lexlt (a b : Z * Z * Z) : Prop :=
  let '(a1, a2, a3) := a in
  let '(b1, b2, b3) := b in
  (a1 < b1 \/ (a1 = b1 /\ (a2 < b2 \/ (a2 = b2 /\ a3 < b3))))%Z.

(** NaN, or a value whose sign bit is clear. *)
Definition sf_pos_signed (f : spec_float) : bool :=
  match f with
  | S754_nan => true
  | S754_zero s | S754_infinity s | S754_finite s _ _ => negb s
  end.

(** NaN, or a value with sign bit [s]. *)
Definition sf_sign_is (s : bool) (f : spec_float) : Prop :=
  match f with
  | S754_nan => True
  | S754_zero s' | S754_infinity s' | S754_finite s' _ _ => s' = s
  end.

(** The plain sums of the two scans of [dispersion]. *)
Definition sum_of (xs : list float) : float :=
  fold_left (fun acc x => acc + x)%float xs 0%float.
Definition sum_sq (avr : float) (xs : list float) : float :=
  fold_left (fun acc x => acc + (x - avr) * (x - avr))%float xs 0%float.

(** An infinity of sign [t], or NaN. *)
Definition inf_or_nan (t : bool) (f : spec_float) : Prop :=
  f = S754_infinity t \/ f = S754_nan.

Definition min_step (a : option float) (x : float) : option float :=
  Some (fmin x (unwrap_or a x)).
Definition max_step (a : option float) (x : float) : option float :=
  Some (fmax x (unwrap_or a x)).

(** What [fmin] / [fmax] over a non-empty list give. *)
Definition least_of (xs : list float) (m : float) : Prop :=
  In m xs /\
  (forall y, In y xs -> PrimFloat.is_nan y = false -> (y <? m)%float = false) /\
  ((exists y, In y xs /\ PrimFloat.is_nan y = false) -> PrimFloat.is_nan m = false).
Definition greatest_of (xs : list float) (m : float) : Prop :=
  In m xs /\
  (forall y, In y xs -> PrimFloat.is_nan y = false -> (m <? y)%float = false) /\
  ((exists y, In y xs /\ PrimFloat.is_nan y = false) -> PrimFloat.is_nan m = false).

(* ================================================================== *)
(** ** Exact values of binary64 numbers *)

Section Binary64_values.
Local Open Scope Z_scope.

(** A binary64 value is an integer multiple of [2^-1074]; [pw e] is
    [2^e] in units of [2^-1075], so that half a unit is an integer too. *)
Definition pw (e : Z) : Z := 2 ^ (e + 1075).

(** [holds mrs e X]: the shift record [mrs] of SpecFloat's rounding
    (mantissa, round bit, sticky bit) locates [X] at exponent [e]. *)
Definition holds (mrs : shr_record) (e X : Z) : Prop :=
  0 <= shr_m mrs /\ shr_m mrs * pw e <= X < (shr_m mrs + 1) * pw e /\
  match shr_r mrs, shr_s mrs with
  | false, false => X = shr_m mrs * pw e
  | false, true => shr_m mrs * pw e < X /\ 2 * (X - shr_m mrs * pw e) < pw e
  | true, false => 2 * (X - shr_m mrs * pw e) = pw e
  | true, true => pw e < 2 * (X - shr_m mrs * pw e)
  end.

(** [Y > 0] has at most 53 significant bits, at any exponent. *)
Definition on_grid (Y : Z) : Prop :=
  exists my ey, 0 < my < 2 ^ 53 /\ -1074 <= ey /\ Y = my * pw ey.

(** [Y > 0] is a finite binary64 magnitude. *)
Definition in_binary64 (Y : Z) : Prop :=
  exists my ey, 0 < my < 2 ^ 53 /\ -1074 <= ey <= 971 /\ Y = my * pw ey.

(** A [spec_float] is finite (zero included). *)
Definition sf_fin (f : spec_float) : bool :=
  match f with S754_zero _ | S754_finite _ _ _ => true | _ => false end.

(** The value of a finite [spec_float], in units of [2^-1075]. *)
Definition sf_val (f : spec_float) : Z :=
  match f with S754_finite s m e => cond_Zopp s (Zpos m * pw e) | _ => 0 end.

(** [Y] is the value of a finite binary64 number. *)
Definition representable (Y : Z) : Prop := Y = 0 \/ in_binary64 Y \/ in_binary64 (- Y).

(** [R] is a result of rounding [X] to binary64 that keeps every bound:
    a representable value (or one with at most 53 bits) below or above [X]
    is below or above [R], unless [R] overflowed to an infinity of the
    side of [X]. *)
Definition rounds (X : Z) (R : spec_float) : Prop :=
  (forall Y, on_grid Y -> Y <= X ->
     R = S754_infinity false \/ (sf_fin R = true /\ Y <= sf_val R)) /\
  (forall Y, on_grid Y -> X <= - Y ->
     R = S754_infinity true \/ (sf_fin R = true /\ sf_val R <= - Y)) /\
  (forall Y, representable Y -> Y <= X ->
     R = S754_infinity false \/ (sf_fin R = true /\ Y <= sf_val R)) /\
  (forall Y, representable Y -> X <= Y ->
     R = S754_infinity true \/ (sf_fin R = true /\ sf_val R <= Y)).

End Binary64_values.

(* ================================================================== *)
(** * The scan engine: every statistic is a fold over the values *)


Lemma for_tokens_fold {S : Type} (toks : list (list N)) (f : S -> float -> S) (s : S) :
  for_tokens toks f s = (xs <- parse_all toks ;; Ok (fold_left f xs s)).
Proof.
  revert s; induction toks as [|t ts IH]; intros s; simpl; [reflexivity|].
  destruct (parse_token t) as [x|e|m]; simpl; try reflexivity.
  rewrite IH. destruct (parse_all ts); reflexivity.
Qed.

Lemma fold_snoc (xs acc : list float) :
  fold_left (fun acc x => acc ++ [x]) xs acc = acc ++ xs.
Proof.
  revert acc; induction xs as [|x xs IH]; intros acc; simpl.
  - now rewrite app_nil_r.
  - rewrite IH, <- app_assoc; reflexivity.
Qed.

Lemma values_parse_all (src : list Byte.byte) : values src = parse_all (tokens src).
Proof.
  unfold values, for_file; rewrite for_tokens_fold; fold (tokens src).
  destruct (parse_all (tokens src)); simpl; try reflexivity.
  now rewrite fold_snoc.
Qed.

(** [for_file] is [fold_left] of the action over the values. *)
Lemma for_file_values {S : Type} (src : list Byte.byte) (f : S -> float -> S) (s : S) :
  for_file src f s = (xs <- values src ;; Ok (fold_left f xs s)).
Proof.
  rewrite values_parse_all; unfold for_file; apply for_tokens_fold.
Qed.

Lemma for_file_ok {S : Type} (src : list Byte.byte) xs (f : S -> float -> S) (s : S) :
  values src = Ok xs -> for_file src f s = Ok (fold_left f xs s).
Proof. intros H; rewrite for_file_values, H; reflexivity. Qed.

Lemma for_file_err {S : Type} (src : list Byte.byte) e (f : S -> float -> S) (s : S) :
  values src = Err e -> for_file src f s = Err e.
Proof. intros H; rewrite for_file_values, H; reflexivity. Qed.


(** A failing token makes the whole scan fail, and every statistic with it. *)
Lemma parse_all_err toks t e :
  In t toks -> parse_token t = Err e ->
  exists e', parse_all toks = Err e' /\ exists t', In t' toks /\ parse_token t' = Err e'.
Proof.
  induction toks as [|t0 ts IH]; simpl; [tauto|].
  intros Hin Ht.
  destruct (parse_token t0) as [x0|e0|m0] eqn:E0; simpl.
  - destruct Hin as [<-|Hin]; [congruence|].
    destruct (IH Hin Ht) as (e' & He' & t' & Hin' & Ht').
    rewrite He'; simpl. exists e'; split; [reflexivity|]. eauto.
  - exists e0; split; [reflexivity|]. eauto.
  - exfalso; unfold parse_token in E0.
    destruct (from_utf8 t0); [destruct (parse_f64 l)|]; discriminate.
Qed.

Lemma values_err_all src e : values src = Err e -> all_statistics_fail src e.
Proof.
  intros H.
  assert (Hm : min_max src = Err e) by (unfold min_max; now rewrite (for_file_err _ _ _ _ H)).
  assert (Ha : average src = Err e) by (unfold average; now rewrite (for_file_err _ _ _ _ H)).
  unfold all_statistics_fail; repeat split; auto.
  - unfold len; now apply for_file_err.
  - unfold dispersion; now rewrite Ha.
  - intros fuel; unfold median; now rewrite Hm.
  - intros k; unfold tails; now apply for_file_err.
Qed.

Lemma token_err_all src t e :
  In t (tokens src) -> parse_token t = Err e ->
  exists e', all_statistics_fail src e' /\
             exists t', In t' (tokens src) /\ parse_token t' = Err e'.
Proof.
  intros Hin Ht.
  destruct (parse_all_err _ _ _ Hin Ht) as (e' & He' & Hw).
  exists e'; split; [|exact Hw].
  apply values_err_all; now rewrite values_parse_all.
Qed.

(** When every token parses, the values are as many as the tokens. *)
Lemma parse_all_ok_length toks :
  (forall t, In t toks -> exists x, parse_token t = Ok x) ->
  exists xs, parse_all toks = Ok xs /\ List.length xs = List.length toks.
Proof.
  induction toks as [|t ts IH]; intros H; simpl; [eauto|].
  destruct (H t (or_introl eq_refl)) as [x Hx]; rewrite Hx; simpl.
  destruct IH as (xs & Hxs & Hl); [intros t' Ht'; apply H; now right|].
  rewrite Hxs; simpl; exists (x :: xs); simpl; auto.
Qed.

Lemma fold_count (xs : list float) n :
  fold_left (fun size (_ : float) => S size) xs n = (n + List.length xs)%nat.
Proof.
  revert n; induction xs as [|x xs IH]; intros n; simpl; [lia|].
  rewrite IH; lia.
Qed.

(** The spec's pieces are the code's tokens, and one empty piece more when
    the source is empty or ends in a space. *)
Lemma spec_pieces_split cur bs :
  spec_pieces_aux cur bs = split_aux cur bs \/
  spec_pieces_aux cur bs = split_aux cur bs ++ [[]].
Proof.
  revert cur; induction bs as [|b bs IH]; intros cur; simpl.
  - destruct cur; simpl; auto.
  - destruct (N.eqb b space).
    + destruct (IH []) as [E|E]; rewrite E; auto.
    + apply IH.
Qed.

Lemma parse_token_nil : parse_token [] = Err ParseFloatError.
Proof. vm_compute; reflexivity. Qed.

(** [split_aux] never keeps a space inside a token. *)
Lemma split_aux_no_space cur bs :
  ~ In space cur -> forall t, In t (split_aux cur bs) -> ~ In space t.
Proof.
  revert cur; induction bs as [|b bs IH]; intros cur Hcur t; simpl.
  - destruct cur; simpl; [tauto|].
    intros [E|[]] Hs; subst t; apply Hcur; apply (in_rev (n :: cur)); exact Hs.
  - destruct (N.eqb_spec b space) as [Eb|Eb].
    + intros [E|Hin]; [subst t; intros Hs; apply Hcur; now apply in_rev|].
      exact (IH [] (fun h => h) t Hin).
    + apply IH; simpl; intros [E|E]; [congruence|tauto].
Qed.

Lemma split_aux_nil cur bs : split_aux cur bs = [] -> cur = [] /\ bs = [].
Proof.
  revert cur; induction bs as [|b bs IH]; intros cur; simpl.
  - destruct cur; simpl; [auto|discriminate].
  - destruct (N.eqb b space); [discriminate|].
    intros H; destruct (IH _ H); discriminate.
Qed.

(** Joining the tokens with spaces gives back the source, but for a
    trailing space. *)
Lemma split_aux_join cur bs :
  rev cur ++ bs = join_space (split_aux cur bs) \/
  rev cur ++ bs = join_space (split_aux cur bs) ++ [space].
Proof.
  revert cur; induction bs as [|b bs IH]; intros cur; simpl.
  - destruct cur as [|c cur]; simpl; [auto|].
    left; now rewrite app_nil_r.
  - destruct (N.eqb_spec b space) as [Eb|Eb].
    + subst b.
      destruct (split_aux [] bs) as [|t ts] eqn:Es.
      * destruct (split_aux_nil _ _ Es) as [_ ->]; simpl; right; reflexivity.
      * destruct (IH []) as [E|E]; simpl in E; rewrite Es in E; simpl.
        -- left; now rewrite E.
        -- right; rewrite E; destruct ts; simpl;
           now repeat (rewrite <- app_assoc || rewrite <- app_comm_cons).
    + destruct (IH (b :: cur)) as [E|E]; simpl in E; rewrite <- app_assoc in E;
        simpl in E; auto.
Qed.

(** ** Which bytes a float literal can contain *)

Lemma take_digits_spec bs d r :
  take_digits bs = (d, r) -> bs = d ++ r /\ forallb is_digit d = true.
Proof.
  revert d r; induction bs as [|b bs IH]; intros d r; simpl.
  - intros H; inversion H; auto.
  - destruct (is_digit b) eqn:Eb.
    + destruct (take_digits bs) as [d' r'] eqn:Et.
      intros H; inversion H; subst.
      destruct (IH _ _ eq_refl) as [-> Hd]; simpl; rewrite Eb, Hd; auto.
    + intros H; inversion H; auto.
Qed.

Lemma bytes_eqb_eq a b : bytes_eqb a b = true -> a = b.
Proof.
  revert b; induction a as [|x a IH]; intros [|y b]; simpl; try discriminate; auto.
  intros H; apply andb_prop in H as [Hx Hb].
  apply N.eqb_eq in Hx; subst; f_equal; auto.
Qed.

Lemma sign_of_spec bs neg r :
  sign_of bs = (neg, r) -> bs = r \/ bs = 43%N :: r \/ bs = 45%N :: r.
Proof.
  unfold sign_of; intros H.
  destruct bs as [|b bs]; [inversion H; auto|].
  destruct b as [|p]; [inversion H; auto|].
  repeat (destruct p as [p|p|]; try (inversion H; auto; fail)).
Qed.

Lemma digits_literal d : forallb is_digit d = true -> forallb float_literal_byte d = true.
Proof.
  induction d as [|b d IH]; simpl; auto.
  intros H; apply andb_prop in H as [Hb Hd].
  rewrite (IH Hd), andb_true_r; unfold float_literal_byte; now rewrite Hb.
Qed.

Lemma word_letter_literal b s :
  In s ["inf"; "infinity"; "nan"]%string -> In (to_lower b) (word s) ->
  float_literal_byte b = true.
Proof.
  intros Hs Hin; unfold float_literal_byte.
  assert (existsb (N.eqb (to_lower b)) (word "eiinfinitynan") = true) as ->;
    [|now rewrite !orb_true_r].
  apply existsb_exists; exists (to_lower b); split; [|apply N.eqb_refl].
  simpl in Hs; destruct Hs as [<- | [<- | [<- | []]]]; simpl in Hin |- *; tauto.
Qed.

Lemma parse_exp_literal bs z :
  parse_exp bs = Some z -> forallb float_literal_byte bs = true.
Proof.
  destruct bs as [|e r]; simpl; [auto|].
  destruct (N.eqb (to_lower e) 101) eqn:Ee; [|discriminate].
  destruct (sign_of r) as [neg r1] eqn:Es.
  destruct (take_digits r1) as [ds r2] eqn:Et.
  destruct ds as [|d ds]; [discriminate|]; destruct r2; [|discriminate].
  intros _.
  destruct (take_digits_spec _ _ _ Et) as [Er1 Hd].
  rewrite app_nil_r in Er1; subst r1.
  assert (He : float_literal_byte e = true).
  { unfold float_literal_byte. apply N.eqb_eq in Ee.
    assert (existsb (N.eqb (to_lower e)) (word "eiinfinitynan") = true) as ->;
      [rewrite Ee; reflexivity | now rewrite !orb_true_r]. }
  change (float_literal_byte e && forallb float_literal_byte r = true).
  rewrite He; simpl.
  destruct (sign_of_spec _ _ _ Es) as [-> | [-> | ->]];
    exact (digits_literal _ Hd).
Qed.

Lemma parse_number_literal neg bs x :
  parse_number neg bs = Some x -> forallb float_literal_byte bs = true.
Proof.
  unfold parse_number.
  destruct (take_digits bs) as [int r1] eqn:Ei.
  destruct (take_digits_spec _ _ _ Ei) as [-> Hi].
  rewrite forallb_app, (digits_literal _ Hi); simpl.
  destruct r1 as [|c r1']; [reflexivity|].
  destruct (N.eqb_spec c 46) as [Ec|Ec].
  - subst c.
    destruct (take_digits r1') as [frac r2] eqn:Ef.
    destruct (take_digits_spec _ _ _ Ef) as [-> Hf].
    destruct (int ++ frac); [discriminate|].
    destruct (parse_exp r2) eqn:Ep; [|discriminate].
    intros _; simpl; rewrite forallb_app, (digits_literal _ Hf).
    exact (parse_exp_literal _ _ Ep).
  - assert (E : match c :: r1' with
                | 46%N :: r => take_digits r
                | _ => ([], c :: r1') end = ([], c :: r1')).
    { destruct c as [|p]; [reflexivity|].
      repeat (destruct p as [p|p|]; try reflexivity). congruence. }
    rewrite E.
    destruct (int ++ []); [discriminate|].
    destruct (parse_exp (c :: r1')) eqn:Ep; [|discriminate].
    intros _; exact (parse_exp_literal _ _ Ep).
Qed.

Lemma parse_f64_literal bs x :
  parse_f64 bs = Some x -> forallb float_literal_byte bs = true.
Proof.
  unfold parse_f64.
  destruct (sign_of bs) as [neg r] eqn:Es.
  assert (Hr : forallb float_literal_byte r = true ->
               forallb float_literal_byte bs = true).
  { intros H; destruct (sign_of_spec _ _ _ Es) as [-> | [-> | ->]]; simpl; auto. }
  assert (Hw : forall s, In s ["inf"; "infinity"; "nan"]%string ->
               bytes_eqb (map to_lower r) (word s) = true ->
               forallb float_literal_byte r = true).
  { intros s Hs Heq; apply bytes_eqb_eq in Heq.
    apply forallb_forall; intros b Hb.
    apply (word_letter_literal b s Hs); rewrite <- Heq; now apply in_map. }
  destruct (bytes_eqb (map to_lower r) (word "inf")) eqn:E1.
  { intros _; apply Hr, (Hw "inf"%string); simpl; auto. }
  destruct (bytes_eqb (map to_lower r) (word "infinity")) eqn:E2.
  { intros _; apply Hr, (Hw "infinity"%string); simpl; auto. }
  simpl.
  destruct (bytes_eqb (map to_lower r) (word "nan")) eqn:E3.
  { intros _; apply Hr, (Hw "nan"%string); simpl; auto. }
  intros H; apply Hr, (parse_number_literal _ _ _ H).
Qed.

Lemma parse_token_literal t x :
  parse_token t = Ok x -> forallb float_literal_byte t = true.
Proof.
  unfold parse_token, from_utf8.
  destruct (utf8_valid t); [|discriminate].
  destruct (parse_f64 t) eqn:E; [|discriminate].
  intros _; exact (parse_f64_literal _ _ E).
Qed.

(** [parse_all] never panics. *)
Lemma parse_all_no_panic toks m : parse_all toks <> Panic m.
Proof.
  induction toks as [|t ts IH]; simpl; [discriminate|].
  unfold parse_token.
  destruct (from_utf8 t); simpl; [|discriminate].
  destruct (parse_f64 l); simpl; [|discriminate].
  destruct (parse_all ts); simpl; congruence.
Qed.

Lemma values_no_panic src m : values src <> Panic m.
Proof. rewrite values_parse_all; apply parse_all_no_panic. Qed.

(* ================================================================== *)
(** * Tails *)

Section Tails.
Variable k : nat.

Lemma tl_skipn (l : list float) n : List.tl (skipn n l) = skipn (S n) l.
Proof.
  revert l; induction n as [|n IH]; intros [|x l]; simpl; auto.
Qed.

(** After any stream [xs], the buffers are the first and the last
    [min (length xs) k] values, both in stream order. *)
Lemma tails_fold (xs : list float) :
  fold_left (tails_step k) xs ([], []) =
    (firstn k xs, skipn (List.length xs - k) xs).
Proof.
  induction xs as [|x xs IH] using rev_ind; [now destruct k|].
  rewrite fold_left_app, IH; simpl; unfold tails_step.
  rewrite length_firstn, length_app; simpl.
  f_equal.
  - rewrite firstn_app.
    destruct (Nat.ltb_spec (Nat.min k (List.length xs)) k) as [Hlt|Hge].
    + rewrite firstn_all2 by lia.
      replace (k - List.length xs) with (S (k - List.length xs - 1)) by lia.
      simpl; now rewrite firstn_nil.
    + replace (k - List.length xs) with 0 by lia.
      simpl; now rewrite app_nil_r.
  - rewrite length_app, length_skipn; simpl.
    destruct (Nat.ltb_spec k (List.length xs - (List.length xs - k) + 1))
      as [Hlt|Hge].
    + assert (E : skipn (List.length xs - k) xs ++ [x]
                  = skipn (List.length xs - k) (xs ++ [x])).
      { rewrite skipn_app.
        replace (List.length xs - k - List.length xs) with 0 by lia.
        reflexivity. }
      rewrite E, tl_skipn; f_equal; lia.
    + replace (List.length xs - k) with 0 by lia.
      replace (List.length xs + 1 - k) with 0 by lia.
      reflexivity.
Qed.
End Tails.

(* ================================================================== *)
(** * The claims *)

(** ** C1: the empty source *)

(** C1 (counterexample): on the empty source [average] returns a number,
    [Ok NaN], not a failure, and [median] terminates abnormally with the
    panic of its [expect]. *)
Lemma C1_counterexample :
  average [] = Ok nan /\
  (forall fuel, median fuel [] = Some (Panic "median requires 1+ value"%string)).
Proof. split; [vm_compute; reflexivity | intros fuel; reflexivity]. Qed.

(** C1 (amended): for the empty source, [len] returns [Ok 0], [min_max]
    returns [Ok None], [average] returns [Ok NaN] (0.0 / 0.0), and [median]
    panics with "median requires 1+ value" whatever the recursion budget. *)
Theorem C1_empty_source :
  len [] = Ok O /\ min_max [] = Ok None /\
  (exists m, average [] = Ok m /\ PrimFloat.is_nan m = true) /\
  (forall fuel, median fuel [] = Some (Panic "median requires 1+ value"%string)).
Proof.
  split; [reflexivity|]. split; [reflexivity|]. split.
  - exists nan; split; vm_compute; reflexivity.
  - intros fuel; reflexivity.
Qed.

(** ** C4: tails *)

(** C4 (counterexample): for "1 2 3 4 5" and [k = 2] the suffix is [[4; 5]];
    after reversal it is [[5; 4]], not the last two values in stream order. *)
Lemma C4_counterexample :
  values (src_of "1 2 3 4 5") = Ok [1; 2; 3; 4; 5]%float /\
  tails (src_of "1 2 3 4 5") 2 = Ok ([1; 2], [4; 5])%float /\
  rev [4; 5]%float <> skipn (5 - 2) [1; 2; 3; 4; 5]%float.
Proof.
  split; [vm_compute; reflexivity|]. split; [vm_compute; reflexivity|].
  simpl; intros H; inversion H.
Qed.

(** C4 (amended): for every stream of [n] values and every capacity [k],
    [tails] returns a prefix equal to the first [min n k] values and a
    suffix equal to the last [min n k] values, both in stream order (the
    front of the suffix is the oldest); reversed, the suffix lists the last
    [min n k] values most recent first. *)
Theorem C4_tails_prefix_suffix (src : list Byte.byte) (xs : list float) (k : nat) :
  values src = Ok xs ->
  exists pre suf,
    tails src k = Ok (pre, suf) /\
    pre = firstn k xs /\ List.length pre = Nat.min (List.length xs) k /\
    suf = skipn (List.length xs - k) xs /\
    List.length suf = Nat.min (List.length xs) k /\
    rev suf = firstn k (rev xs).
Proof.
  intros Hv.
  exists (firstn k xs), (skipn (List.length xs - k) xs).
  unfold tails; rewrite (for_file_ok _ _ _ _ Hv), tails_fold.
  repeat split.
  - rewrite length_firstn; lia.
  - rewrite length_skipn; lia.
  - now rewrite firstn_rev.
Qed.

Lemma C4_tails_prefix_suffix_witness :
  values (src_of "1 2 3 4 5") = Ok [1; 2; 3; 4; 5]%float /\
  exists pre suf,
    tails (src_of "1 2 3 4 5") 2 = Ok (pre, suf) /\
    pre = firstn 2 [1; 2; 3; 4; 5]%float /\ List.length pre = 2 /\
    suf = skipn (5 - 2) [1; 2; 3; 4; 5]%float /\ List.length suf = 2 /\
    rev suf = firstn 2 (rev [1; 2; 3; 4; 5]%float).
Proof.
  split; [vm_compute; reflexivity|].
  apply (C4_tails_prefix_suffix (src_of "1 2 3 4 5") [1; 2; 3; 4; 5]%float 2).
  vm_compute; reflexivity.
Defined.

(** ** C7: a malformed token fails every statistic *)

(** C7: if any token of the source (as [for_file] splits it; an empty
    token between two spaces included) fails to convert
    ([String::from_utf8] or [parse::<f64>]), every statistic (count,
    min_max, mean, variance, median, tails) returns that error of the
    first failing token, and no partial result. *)
Theorem C7_malformed_token_fails_all (src : list Byte.byte) (t : list N) (e : error) :
  In t (tokens src) -> parse_token t = Err e ->
  exists e', all_statistics_fail src e' /\
             exists t', In t' (tokens src) /\ parse_token t' = Err e'.
Proof. apply token_err_all. Qed.

Lemma C7_malformed_token_fails_all_witness :
  len (src_of "1 2 x 4") = Err ParseFloatError /\
  exists e', all_statistics_fail (src_of "1 2 x 4") e' /\
    exists t', In t' (tokens (src_of "1 2 x 4")) /\ parse_token t' = Err e'.
Proof.
  split; [vm_compute; reflexivity|].
  apply (C7_malformed_token_fails_all (src_of "1 2 x 4") (word "x") ParseFloatError).
  - vm_compute; auto 6.
  - vm_compute; reflexivity.
Defined.

(** ** C8: count *)

(** C8: when every space-delimited token of the source (the pieces
    between spaces, from start to end) parses as a float, [len] returns
    exactly the number of those tokens; and the source with zero values
    (the empty one) gives [Ok 0], not an error. *)
Theorem C8_count_is_token_count :
  (forall src : list Byte.byte, values src = Ok [] -> len src = Ok O) /\
  (forall src : list Byte.byte,
     (forall t, In t (spec_space_delimited_tokens src) -> exists x, parse_token t = Ok x) ->
     len src = Ok (List.length (spec_space_delimited_tokens src))).
Proof.
  split.
  - intros src Hv; unfold len; now rewrite (for_file_ok _ _ _ _ Hv).
  - intros src H.
    assert (Ep : spec_space_delimited_tokens src = tokens src).
    { unfold spec_space_delimited_tokens, tokens, split_space.
      destruct (spec_pieces_split [] (map Byte.to_N src)) as [E|E]; [exact E|].
      exfalso.
      destruct (H []) as [x Hx].
      - unfold spec_space_delimited_tokens; rewrite E; apply in_or_app; simpl; auto.
      - rewrite parse_token_nil in Hx; discriminate. }
    rewrite Ep in H |- *.
    destruct (parse_all_ok_length _ H) as (xs & Hxs & Hl).
    unfold len; rewrite (for_file_ok src xs); [|now rewrite values_parse_all].
    rewrite fold_count, Hl; reflexivity.
Qed.

Lemma C8_count_is_token_count_witness :
  len (src_of "1 2 3 4 5") = Ok 5%nat /\ len [] = Ok O.
Proof.
  destruct C8_count_is_token_count as [H0 H1]; split.
  - apply (H1 (src_of "1 2 3 4 5")).
    intros t Ht; vm_compute in Ht.
    repeat (destruct Ht as [<-|Ht]; [eexists; vm_compute; reflexivity|]).
    destruct Ht.
  - apply H0; reflexivity.
Defined.

(** ** C10: the scan splits on the space byte only *)

(** C10: [for_file] splits on the byte 0x20 only: no token contains a
    space, and the tokens joined by spaces give back the source (up to one
    trailing space), so every other byte stays in a token.  A token holding
    a byte that cannot occur in a float literal, such as a newline, tab,
    carriage return, vertical tab or form feed (a trailing newline on the
    last token, or any such separator), makes every statistic fail. *)
Theorem C10_split_only_on_space (src : list Byte.byte) :
  (forall t, In t (tokens src) -> ~ In space t) /\
  (map Byte.to_N src = join_space (tokens src) \/
   map Byte.to_N src = join_space (tokens src) ++ [space]) /\
  (forall t b, In t (tokens src) -> In b t -> float_literal_byte b = false ->
     exists e, all_statistics_fail src e) /\
  (forall b, In b [9; 10; 11; 12; 13]%N -> float_literal_byte b = false).
Proof.
  split; [|split; [|split]].
  - apply split_aux_no_space; simpl; tauto.
  - exact (split_aux_join [] (map Byte.to_N src)).
  - intros t b Ht Hb Hnl.
    destruct (parse_token t) as [x|e|m] eqn:Ep.
    + apply parse_token_literal in Ep.
      rewrite forallb_forall in Ep; rewrite (Ep b Hb) in Hnl; discriminate.
    + destruct (token_err_all _ _ _ Ht Ep) as (e' & He' & _); eauto.
    + exfalso; unfold parse_token in Ep.
      destruct (from_utf8 t); [destruct (parse_f64 l)|]; discriminate.
  - intros b Hb; simpl in Hb.
    repeat (destruct Hb as [<-|Hb]; [reflexivity|]); destruct Hb.
Qed.

Lemma C10_split_only_on_space_witness :
  tokens (src_of "1 2" ++ [byte_lf]) = [word "1"; word "2" ++ [10%N]] /\
  exists e, all_statistics_fail (src_of "1 2" ++ [byte_lf]) e.
Proof.
  split; [vm_compute; reflexivity|].
  destruct (C10_split_only_on_space (src_of "1 2" ++ [byte_lf])) as (_ & _ & H & Hws).
  apply (H (word "2" ++ [10%N]) 10%N).
  - vm_compute; auto.
  - apply in_or_app; simpl; auto.
  - apply Hws; simpl; auto.
Defined.

(* ================================================================== *)
(** * Helpers for the median search *)

Lemma count_cmp_cons c mid x xs :
  count_cmp c mid (x :: xs) = ((if cmp_is c mid x then 1 else 0) + count_cmp c mid xs)%Z.
Proof. unfold count_cmp; cbn [filter]; destruct (cmp_is c mid x); cbn [List.length]; lia. Qed.

Lemma count_step_cmp mid l e g x :
  count_step mid (l, e, g) x =
    ((l + if cmp_is Lt mid x then 1 else 0)%Z,
     (e + if cmp_is Eq mid x then 1 else 0)%Z,
     (g + if cmp_is Gt mid x then 1 else 0)%Z).
Proof.
  unfold count_step, cmp_is; destruct (total_cmp x mid); simpl; f_equal; try f_equal; lia.
Qed.

Lemma count_fold mid xs l e g :
  fold_left (count_step mid) xs (l, e, g) =
    ((l + count_cmp Lt mid xs)%Z, (e + count_cmp Eq mid xs)%Z,
     (g + count_cmp Gt mid xs)%Z).
Proof.
  revert l e g; induction xs as [|x xs IH]; intros l e g; cbn [fold_left].
  - unfold count_cmp; simpl; f_equal; [f_equal|]; lia.
  - rewrite count_step_cmp, IH, !count_cmp_cons; f_equal; [f_equal|]; lia.
Qed.

Lemma count_total mid xs :
  (count_cmp Lt mid xs + count_cmp Eq mid xs + count_cmp Gt mid xs)%Z =
    Z.of_nat (List.length xs).
Proof.
  induction xs as [|x xs IH]; [reflexivity|].
  rewrite !count_cmp_cons; simpl List.length; rewrite Nat2Z.inj_succ.
  unfold cmp_is; destruct (total_cmp x mid); lia.
Qed.

Lemma is_median_counts src xs mid :
  values src = Ok xs ->
  is_median src mid =
    (let less := count_cmp Lt mid xs in
     let equal := count_cmp Eq mid xs in
     let greater := count_cmp Gt mid xs in
     if Z.ltb (Z.abs (greater - less)) (equal + 1) then Ok Eq
     else if Z.ltb greater less then Ok Lt
     else Ok Gt).
Proof.
  intros Hv; unfold is_median; rewrite (for_file_ok _ _ _ _ Hv), count_fold.
  reflexivity.
Qed.

Lemma find_median_unfold fuel src l r :
  (abs (l - r) <=? tolerance)%float = false ->
  find_median (S fuel) src l r =
    match bisect_step src l r with
    | Ok (l', r') => find_median fuel src l' r'
    | Err e => Some (Err e)
    | Panic m => Some (Panic m)
    end.
Proof.
  intros Hs; simpl; rewrite Hs; unfold bisect_step.
  destruct (is_median src ((r + l) / 2)%float) as [[| |]|e|m]; reflexivity.
Qed.

Lemma find_median_returns fuel src l r v :
  find_median fuel src l r = Some (Ok v) ->
  exists r', bisect_reach src l r v r' /\ (abs (v - r') <=? tolerance)%float = true.
Proof.
  revert l r; induction fuel as [|fuel IH]; intros l r; [discriminate|].
  destruct ((abs (l - r) <=? tolerance)%float) eqn:Hs.
  - simpl; rewrite Hs; intros H; inversion H; subst.
    exists r; split; [constructor | exact Hs].
  - rewrite (find_median_unfold _ _ _ _ Hs).
    destruct (bisect_step src l r) as [[l' r']|e|m] eqn:Eb; try discriminate.
    intros H; destruct (IH _ _ H) as (r'' & Hr & Hst).
    exists r''; split; [econstructor; eauto | exact Hst].
Qed.

(** An interval that the step maps to itself is never left. *)
Lemma find_median_stuck src l r :
  (abs (l - r) <=? tolerance)%float = false ->
  bisect_step src l r = Ok (l, r) ->
  forall fuel, find_median fuel src l r = None.
Proof.
  intros Hs Hb fuel; induction fuel as [|fuel IH]; [reflexivity|].
  rewrite (find_median_unfold _ _ _ _ Hs), Hb; exact IH.
Qed.

(** ** C2: one bisection step *)

(** C2: in a call of [find_median] that does not stop, with
    [mid = (left + right) / 2] and the counts [less], [equal], [greater] of
    the values [x] with [x.total_cmp(&mid)] = Less, Equal, Greater (one
    full scan; every value falls in exactly one class), the search
    continues on [[left, mid]] if [|greater - less| < equal + 1], otherwise
    on [[left, mid]] if [greater < less], otherwise on [[mid, right]]. *)
Theorem C2_bisection_step (src : list Byte.byte) (xs : list float) (fuel : nat)
    (left right : float) :
  values src = Ok xs ->
  (abs (left - right) <=? tolerance)%float = false ->
  let mid := ((right + left) / 2)%float in
  let less := count_cmp Lt mid xs in
  let equal := count_cmp Eq mid xs in
  let greater := count_cmp Gt mid xs in
  (less + equal + greater)%Z = Z.of_nat (List.length xs) /\
  find_median (S fuel) src left right =
    if Z.ltb (Z.abs (greater - less)) (equal + 1) then find_median fuel src left mid
    else if Z.ltb greater less then find_median fuel src left mid
    else find_median fuel src mid right.
Proof.
  intros Hv Hs mid less equal greater; split; [apply count_total|].
  simpl; rewrite Hs; fold mid.
  rewrite (is_median_counts _ _ _ Hv); simpl; fold less equal greater.
  destruct (Z.ltb (Z.abs (greater - less)) (equal + 1)); [reflexivity|].
  destruct (Z.ltb greater less); reflexivity.
Qed.

Lemma C2_bisection_step_witness :
  values (src_of "1 2 3 4 5") = Ok [1; 2; 3; 4; 5]%float /\
  (abs (1 - 5) <=? tolerance)%float = false /\
  (count_cmp Lt 3%float [1; 2; 3; 4; 5]%float + count_cmp Eq 3%float [1; 2; 3; 4; 5]%float +
   count_cmp Gt 3%float [1; 2; 3; 4; 5]%float)%Z = 5%Z /\
  find_median 30 (src_of "1 2 3 4 5") 1%float 5%float =
    find_median 29 (src_of "1 2 3 4 5") 1%float 3%float.
Proof.
  assert (Hv : values (src_of "1 2 3 4 5") = Ok [1; 2; 3; 4; 5]%float)
    by (vm_compute; reflexivity).
  assert (Hs : (abs (1 - 5) <=? tolerance)%float = false) by (vm_compute; reflexivity).
  split; [exact Hv|]; split; [exact Hs|].
  exact (C2_bisection_step (src_of "1 2 3 4 5") _ 29 1%float 5%float Hv Hs).
Defined.

(** ** C3: termination of the median search *)

(** C3 (counterexample): with the finite seeds 1000000000000000.125 and
    1000000000000000.25 (the minimum and maximum of that two-value source,
    one binary64 step apart, a step of 0.125 > 1e-3), [mid] rounds to
    [right], the step keeps the interval [[left, mid]] = [[left, right]],
    and no number of recursive calls reaches a result. *)
Lemma C3_counterexample :
  min_max (src_of "1000000000000000.125 1000000000000000.25") =
    Ok (Some (1000000000000000.125, 1000000000000000.25)%float) /\
  (forall fuel,
     median fuel (src_of "1000000000000000.125 1000000000000000.25") = None).
Proof.
  split; [vm_compute; reflexivity|].
  intros fuel; unfold median.
  replace (min_max (src_of "1000000000000000.125 1000000000000000.25"))
    with (Ok (Some (1000000000000000.125, 1000000000000000.25)%float))
    by (vm_compute; reflexivity).
  apply find_median_stuck; vm_compute; reflexivity.
Qed.

(** C3 (amended): [find_median] stops exactly when
    [|left - right| <= 1e-3] and then returns the current [left]; any
    result it returns is the [left] of an interval reached by the
    bisection steps at which this test holds.  It does not terminate for
    every pair of finite seeds: where [mid] rounds onto a bound the
    interval stops shrinking (see the counterexample). *)
Theorem C3_median_stop_rule :
  (forall fuel src left right,
     (abs (left - right) <=? tolerance)%float = true ->
     find_median (S fuel) src left right = Some (Ok left)) /\
  (forall fuel src left right v,
     find_median fuel src left right = Some (Ok v) ->
     exists r', bisect_reach src left right v r' /\
                (abs (v - r') <=? tolerance)%float = true).
Proof.
  split.
  - intros fuel src left right Hs; simpl; now rewrite Hs.
  - exact find_median_returns.
Qed.

Lemma C3_median_stop_rule_witness :
  find_median 1 [] 1%float 1%float = Some (Ok 1%float) /\
  exists r', bisect_reach (src_of "1 2 3 4 5") 1%float 5%float 2.9990234375%float r' /\
             (abs (2.9990234375 - r') <=? tolerance)%float = true.
Proof.
  destruct C3_median_stop_rule as [H1 H2]; split.
  - apply H1; vm_compute; reflexivity.
  - apply (H2 100 (src_of "1 2 3 4 5") 1%float 5%float); vm_compute; reflexivity.
Defined.

(* ================================================================== *)
(** * The order of binary64 values *)

Lemma lex3_Lt a b : lex3 a b = Lt <-> lexlt a b.
Proof.
  destruct a as [[a1 a2] a3], b as [[b1 b2] b3]; simpl.
  destruct (Z.compare_spec a1 b1); [destruct (Z.compare_spec a2 b2);
    [destruct (Z.compare_spec a3 b3)| |]| |];
    split; intros Hc; try discriminate; try reflexivity; lia.
Qed.

Lemma lex3_Eq a b : lex3 a b = Eq <-> a = b.
Proof.
  destruct a as [[a1 a2] a3], b as [[b1 b2] b3]; simpl.
  destruct (Z.compare_spec a1 b1); [destruct (Z.compare_spec a2 b2);
    [destruct (Z.compare_spec a3 b3)| |]| |];
    split; intros Hc; try discriminate; try reflexivity; try congruence;
    inversion Hc; lia.
Qed.

Lemma lex3_refl a : lex3 a a = Eq.
Proof. now apply lex3_Eq. Qed.

(** [SFcompare] on non-NaN values is [lex3] of the keys. *)
Lemma SFcompare_key x y :
  x <> S754_nan -> y <> S754_nan -> SFcompare x y = Some (lex3 (sf_key x) (sf_key y)).
Proof.
  intros Hx Hy.
  destruct x as [sx|sx| |sx mx ex]; [| |congruence|];
  destruct y as [sy|sy| |sy my ey]; try congruence;
  try destruct sx; try destruct sy; simpl; try reflexivity.
  rewrite Z.compare_opp.
  destruct (Z.compare_spec ex ey) as [E|E|E].
  - subst; rewrite Z.compare_refl; reflexivity.
  - rewrite (proj2 (Z.compare_gt_iff ey ex)) by lia; reflexivity.
  - rewrite (proj2 (Z.compare_lt_iff ey ex)) by lia; reflexivity.
Qed.

Lemma Prim2SF_zero : Prim2SF 0%float = S754_zero false.
Proof. vm_compute; reflexivity. Qed.

Lemma is_nan_Prim2SF x : PrimFloat.is_nan x = true <-> Prim2SF x = S754_nan.
Proof.
  unfold PrimFloat.is_nan; rewrite FloatAxioms.eqb_spec; unfold SFeqb.
  destruct (Prim2SF x) as [s|s| |s m e] eqn:E.
  3: simpl; split; auto.
  all: rewrite SFcompare_key by discriminate; rewrite lex3_refl; simpl;
    split; discriminate.
Qed.

Lemma not_nan_Prim2SF x : PrimFloat.is_nan x = false -> Prim2SF x <> S754_nan.
Proof.
  intros H E; apply is_nan_Prim2SF in E; congruence.
Qed.

(** [x <? y] on non-NaN values is [lexlt] of the keys. *)
Lemma ltb_key x y :
  PrimFloat.is_nan x = false -> PrimFloat.is_nan y = false ->
  (x <? y)%float = true <-> lexlt (sf_key (Prim2SF x)) (sf_key (Prim2SF y)).
Proof.
  intros Hx Hy; rewrite ltb_spec; unfold SFltb.
  rewrite SFcompare_key by (apply not_nan_Prim2SF; assumption).
  rewrite <- lex3_Lt; destruct (lex3 _ _); split; congruence.
Qed.

Lemma lexlt_irrefl a : ~ lexlt a a.
Proof. destruct a as [[a1 a2] a3]; simpl; lia. Qed.

Lemma lexlt_asym a b : lexlt a b -> ~ lexlt b a.
Proof. destruct a as [[a1 a2] a3], b as [[b1 b2] b3]; simpl; lia. Qed.

Lemma lexlt_neg_trans a b c : ~ lexlt b a -> ~ lexlt c b -> ~ lexlt c a.
Proof. destruct a as [[a1 a2] a3], b as [[b1 b2] b3], c as [[c1 c2] c3]; simpl; lia. Qed.

Lemma ltb_irrefl x : (x <? x)%float = false.
Proof.
  destruct (PrimFloat.is_nan x) eqn:Hx.
  - rewrite ltb_spec; apply is_nan_Prim2SF in Hx; rewrite Hx; reflexivity.
  - destruct (x <? x)%float eqn:E; [|reflexivity].
    apply ltb_key in E; auto. exfalso; exact (lexlt_irrefl _ E).
Qed.

Lemma ltb_nan_l x y : PrimFloat.is_nan x = true -> (x <? y)%float = false.
Proof.
  intros H; rewrite ltb_spec; apply is_nan_Prim2SF in H; rewrite H; reflexivity.
Qed.

Lemma ltb_nan_r x y : PrimFloat.is_nan y = true -> (x <? y)%float = false.
Proof.
  intros H; rewrite ltb_spec; apply is_nan_Prim2SF in H; rewrite H.
  unfold SFltb; destruct (Prim2SF x); reflexivity.
Qed.

Lemma ltb_asym x y : (x <? y)%float = true -> (y <? x)%float = false.
Proof.
  intros H.
  destruct (PrimFloat.is_nan x) eqn:Hx; [rewrite ltb_nan_l in H; auto; discriminate|].
  destruct (PrimFloat.is_nan y) eqn:Hy; [rewrite ltb_nan_r in H; auto; discriminate|].
  apply ltb_key in H; auto.
  destruct (y <? x)%float eqn:E; [|reflexivity].
  apply ltb_key in E; auto. exfalso; exact (lexlt_asym _ _ H E).
Qed.

(** [x <= y <= z] in the negative form that [<?] gives. *)
Lemma ltb_neg_trans x y z :
  PrimFloat.is_nan x = false -> PrimFloat.is_nan y = false -> PrimFloat.is_nan z = false ->
  (y <? x)%float = false -> (z <? y)%float = false -> (z <? x)%float = false.
Proof.
  intros Hx Hy Hz Hyx Hzy.
  destruct (z <? x)%float eqn:E; [|reflexivity]; exfalso.
  apply ltb_key in E; auto.
  apply (lexlt_neg_trans (sf_key (Prim2SF x)) (sf_key (Prim2SF y)) (sf_key (Prim2SF z))); auto.
  - intros H; apply ltb_key in H; auto; congruence.
  - intros H; apply ltb_key in H; auto; congruence.
Qed.

(* ================================================================== *)
(** * The fold of [min_max] *)

Lemma min_max_fold_split xs a b :
  fold_left (fun '(val_min, val_max) x =>
               (Some (fmin x (unwrap_or val_min x)), Some (fmax x (unwrap_or val_max x))))
            xs (a, b) =
  (fold_left min_step xs a, fold_left max_step xs b).
Proof.
  revert a b; induction xs as [|x xs IH]; intros a b; simpl; [reflexivity|].
  apply IH.
Qed.

Lemma in_snoc_inv (y x : float) xs : In y (xs ++ [x]) -> In y xs \/ y = x.
Proof. rewrite in_app_iff; simpl; intuition. Qed.

Lemma min_fold xs :
  xs <> [] -> exists m, fold_left min_step xs None = Some m /\ least_of xs m.
Proof.
  induction xs as [|x xs IH] using rev_ind; [congruence|]; intros _.
  rewrite fold_left_app; simpl.
  destruct xs as [|x0 xs0] eqn:Exs.
  - simpl; exists (fmin x x); split; [reflexivity|].
    assert (Hxx : fmin x x = x)
      by (unfold fmin; destruct (PrimFloat.is_nan x), (x <? x)%float; reflexivity).
    rewrite Hxx; repeat split; simpl; auto.
    + intros y [<-|[]] _; apply ltb_irrefl.
    + intros (y & [<-|[]] & Hy); exact Hy.
  - rewrite <- Exs in *.
    destruct IH as (m & Hm & Hin & Hle & Hnn); [subst; discriminate|].
    rewrite Hm; unfold min_step; simpl; eexists; split; [reflexivity|].
    unfold fmin.
    destruct (PrimFloat.is_nan x) eqn:Hx.
    + repeat split.
      * apply in_or_app; auto.
      * intros y Hy Hyn; destruct (in_snoc_inv _ _ _ Hy) as [Hy' | ->]; [auto|congruence].
      * intros (y & Hy & Hyn); apply Hnn; destruct (in_snoc_inv _ _ _ Hy) as [Hy' | ->];
          [eauto|congruence].
    + destruct (PrimFloat.is_nan m) eqn:Hmn.
      * repeat split.
        -- apply in_or_app; simpl; auto.
        -- intros y Hy Hyn; destruct (in_snoc_inv _ _ _ Hy) as [Hy' | ->].
           ++ exfalso; assert (true = false) by (apply Hnn; eauto); congruence.
           ++ apply ltb_irrefl.
        -- intros _; exact Hx.
      * destruct (m <? x)%float eqn:Emx.
        -- repeat split.
           ++ apply in_or_app; auto.
           ++ intros y Hy Hyn; destruct (in_snoc_inv _ _ _ Hy) as [Hy' | ->]; [auto|].
              now apply ltb_asym.
           ++ intros _; exact Hmn.
        -- repeat split.
           ++ apply in_or_app; simpl; auto.
           ++ intros y Hy Hyn; destruct (in_snoc_inv _ _ _ Hy) as [Hy' | ->];
                [|apply ltb_irrefl].
              apply (ltb_neg_trans x m y); auto.
           ++ intros _; exact Hx.
Qed.

Lemma max_fold xs :
  xs <> [] -> exists m, fold_left max_step xs None = Some m /\ greatest_of xs m.
Proof.
  induction xs as [|x xs IH] using rev_ind; [congruence|]; intros _.
  rewrite fold_left_app; simpl.
  destruct xs as [|x0 xs0] eqn:Exs.
  - simpl; exists (fmax x x); split; [reflexivity|].
    assert (Hxx : fmax x x = x)
      by (unfold fmax; destruct (PrimFloat.is_nan x), (x <? x)%float; reflexivity).
    rewrite Hxx; repeat split; simpl; auto.
    + intros y [<-|[]] _; apply ltb_irrefl.
    + intros (y & [<-|[]] & Hy); exact Hy.
  - rewrite <- Exs in *.
    destruct IH as (m & Hm & Hin & Hle & Hnn); [subst; discriminate|].
    rewrite Hm; unfold max_step; simpl; eexists; split; [reflexivity|].
    unfold fmax.
    destruct (PrimFloat.is_nan x) eqn:Hx.
    + repeat split.
      * apply in_or_app; auto.
      * intros y Hy Hyn; destruct (in_snoc_inv _ _ _ Hy) as [Hy' | ->]; [auto|congruence].
      * intros (y & Hy & Hyn); apply Hnn; destruct (in_snoc_inv _ _ _ Hy) as [Hy' | ->];
          [eauto|congruence].
    + destruct (PrimFloat.is_nan m) eqn:Hmn.
      * repeat split.
        -- apply in_or_app; simpl; auto.
        -- intros y Hy Hyn; destruct (in_snoc_inv _ _ _ Hy) as [Hy' | ->].
           ++ exfalso; assert (true = false) by (apply Hnn; eauto); congruence.
           ++ apply ltb_irrefl.
        -- intros _; exact Hx.
      * destruct (x <? m)%float eqn:Exm.
        -- repeat split.
           ++ apply in_or_app; auto.
           ++ intros y Hy Hyn; destruct (in_snoc_inv _ _ _ Hy) as [Hy' | ->]; [auto|].
              now apply ltb_asym.
           ++ intros _; exact Hmn.
        -- repeat split.
           ++ apply in_or_app; simpl; auto.
           ++ intros y Hy Hyn; destruct (in_snoc_inv _ _ _ Hy) as [Hy' | ->];
                [|apply ltb_irrefl].
              apply (ltb_neg_trans y m x); auto.
           ++ intros _; exact Hx.
Qed.

Lemma min_max_values src xs :
  values src = Ok xs ->
  min_max src = Ok (zip (fold_left min_step xs None) (fold_left max_step xs None)).
Proof.
  intros Hv; unfold min_max; rewrite (for_file_ok _ _ _ _ Hv), min_max_fold_split.
  reflexivity.
Qed.

(** C6 (counterexample): on the source "1 NaN" the values are [1; NaN] and
    [min_max] returns [Some (1, 1)], while [total_cmp] ranks the positive NaN
    above 1: the pair is not the maximum under a [total_cmp] order. *)
Lemma C6_counterexample :
  values (src_of "1 NaN") = Ok [1%float; nan] /\
  min_max (src_of "1 NaN") = Ok (Some (1, 1)%float) /\
  total_cmp 1%float nan = Lt.
Proof. split; [|split]; vm_compute; reflexivity. Qed.

(** C6 (amended): [min_max] scans the values once.  With no values it returns
    [Ok None]; otherwise [Ok (Some (mn, mx))] where [mn] and [mx] are values of
    the stream, no non-NaN value is [<] [mn], [mx] is [<] no non-NaN value
    (the f64 [min]/[max] fold skips NaN), and [mn], [mx] are not NaN as soon as
    one value is not NaN. *)
Theorem C6_min_max_fold src xs :
  values src = Ok xs ->
  (xs = [] -> min_max src = Ok None) /\
  (xs <> [] -> exists mn mx,
     min_max src = Ok (Some (mn, mx)) /\ least_of xs mn /\ greatest_of xs mx).
Proof.
  intros Hv; rewrite (min_max_values _ _ Hv); split.
  - intros ->; reflexivity.
  - intros Hne.
    destruct (min_fold xs Hne) as (mn & Hmn & Hl).
    destruct (max_fold xs Hne) as (mx & Hmx & Hg).
    exists mn, mx; rewrite Hmn, Hmx; auto.
Qed.

Lemma C6_min_max_fold_witness :
  values (src_of "1 NaN") = Ok [1%float; nan] /\
  ((([1%float; nan] = [] -> min_max (src_of "1 NaN") = Ok None) /\
   ([1%float; nan] <> [] -> exists mn mx,
     min_max (src_of "1 NaN") = Ok (Some (mn, mx)) /\
     least_of [1%float; nan] mn /\ greatest_of [1%float; nan] mx))).
Proof.
  assert (H : values (src_of "1 NaN") = Ok [1%float; nan]) by (vm_compute; reflexivity).
  split; [exact H | exact (C6_min_max_fold _ _ H)].
Defined.

(* ================================================================== *)
(** * Signs through binary64 rounding *)

Ltac destruct_pairs :=
  repeat match goal with
         | |- context [match ?p with pair _ _ => _ end] => destruct p
         end.

Lemma round_aux_sign p emax s m e l :
  sf_sign_is s (binary_round_aux p emax s m e l).
Proof.
  unfold binary_round_aux; destruct_pairs.
  destruct (shr_m _); simpl; auto.
  destruct (_ <=? _)%Z; simpl; auto.
Qed.

Lemma round_sign p emax s m e : sf_sign_is s (binary_round p emax s m e).
Proof. unfold binary_round; destruct_pairs; apply round_aux_sign. Qed.

Lemma normalize_nonneg_sign p emax z e :
  (0 <= z)%Z -> sf_sign_is false (binary_normalize p emax z e false).
Proof.
  intros Hz; destruct z as [|q|q]; simpl; auto.
  - apply round_sign.
  - lia.
Qed.

Lemma sign_pos f : sf_sign_is false f -> sf_pos_signed f = true.
Proof. destruct f; simpl; intros; subst; auto. Qed.

Lemma pos_sign f : sf_pos_signed f = true -> sf_sign_is false f.
Proof. destruct f as [s|s| |s m e]; simpl; auto; destruct s; simpl; congruence. Qed.

Lemma SFmul_square_pos p emax f : sf_pos_signed (SFmul p emax f f) = true.
Proof.
  destruct f as [s|s| |s m e]; simpl; try rewrite xorb_nilpotent; auto.
  apply sign_pos, round_aux_sign.
Qed.

Lemma SFadd_pos p emax a b :
  sf_pos_signed a = true -> sf_pos_signed b = true ->
  sf_pos_signed (SFadd p emax a b) = true.
Proof.
  destruct a as [sa|sa| |sa ma ea], b as [sb|sb| |sb mb eb]; simpl; auto;
    try (destruct sa; discriminate); try (destruct sb; discriminate);
    intros Ha Hb; destruct sa, sb; try discriminate; auto.
  apply sign_pos, normalize_nonneg_sign; simpl; lia.
Qed.

Lemma SFdiv_pos p emax a b :
  sf_pos_signed a = true -> sf_pos_signed b = true ->
  sf_pos_signed (SFdiv p emax a b) = true.
Proof.
  destruct a as [sa|sa| |sa ma ea], b as [sb|sb| |sb mb eb]; simpl; auto;
    intros Ha Hb; destruct sa, sb; try discriminate; auto.
  destruct_pairs; apply sign_pos, round_aux_sign.
Qed.

Lemma as_f64_pos n : sf_pos_signed (Prim2SF (as_f64 n)) = true.
Proof.
  unfold as_f64; rewrite FloatAxioms.of_uint63_spec.
  apply sign_pos, normalize_nonneg_sign.
  apply (Uint63.to_Z_bounded (Uint63.of_Z (Z.of_nat n))).
Qed.

Lemma pos_not_neg r : sf_pos_signed (Prim2SF r) = true -> (r <? 0)%float = false.
Proof.
  intros Hr; rewrite FloatAxioms.ltb_spec, Prim2SF_zero.
  destruct (Prim2SF r) as [s|s| |s m e]; simpl in *; auto;
    destruct s; try discriminate; reflexivity.
Qed.

(** The second scan of [dispersion]: a sum of squares from [+0]. *)
Lemma sq_fold_pos (avr : float) xs (acc : float) n :
  sf_pos_signed (Prim2SF acc) = true ->
  sf_pos_signed (Prim2SF (fst (fold_left
     (fun '(sum, l) x => (sum + (x - avr) * (x - avr), S l))%float xs (acc, n)))) = true.
Proof.
  revert acc n; induction xs as [|x xs IH]; intros acc n Hacc; simpl; auto.
  apply IH; rewrite FloatAxioms.add_spec; apply SFadd_pos; auto.
  rewrite FloatAxioms.mul_spec; apply SFmul_square_pos.
Qed.

Lemma sq_fold_count (avr : float) xs (acc : float) n :
  snd (fold_left
     (fun '(sum, l) x => (sum + (x - avr) * (x - avr), S l))%float xs (acc, n)) =
  (n + List.length xs)%nat.
Proof.
  revert acc n; induction xs as [|x xs IH]; intros acc n; simpl; [lia|].
  rewrite IH; lia.
Qed.

Lemma sum_fold_count xs (acc : float) n :
  snd (fold_left (fun '(sum, l) x => (sum + x, S l))%float xs (acc, n)) =
  (n + List.length xs)%nat.
Proof.
  revert acc n; induction xs as [|x xs IH]; intros acc n; simpl; [lia|].
  rewrite IH; lia.
Qed.

Lemma sum_fold_fst xs (acc : float) n :
  fst (fold_left (fun '(sum, l) x => (sum + x, S l))%float xs (acc, n)) =
  fold_left (fun acc x => acc + x)%float xs acc.
Proof. revert acc n; induction xs as [|x xs IH]; intros acc n; simpl; auto. Qed.

Lemma sq_fold_fst (avr : float) xs (acc : float) n :
  fst (fold_left
     (fun '(sum, l) x => (sum + (x - avr) * (x - avr), S l))%float xs (acc, n)) =
  fold_left (fun acc x => acc + (x - avr) * (x - avr))%float xs acc.
Proof. revert acc n; induction xs as [|x xs IH]; intros acc n; simpl; auto. Qed.

Lemma average_values src xs :
  values src = Ok xs ->
  average src = Ok (sum_of xs / as_f64 (List.length xs))%float.
Proof.
  intros Hv; unfold average; rewrite (for_file_ok _ _ _ _ Hv); simpl.
  pose proof (sum_fold_fst xs 0%float O) as H1.
  pose proof (sum_fold_count xs 0%float O) as H2.
  destruct (fold_left _ xs _) as [sm l]; simpl in *; subst; reflexivity.
Qed.

Lemma dispersion_values src xs :
  values src = Ok xs ->
  dispersion src =
    Ok (sum_sq (sum_of xs / as_f64 (List.length xs)) xs / as_f64 (List.length xs))%float.
Proof.
  intros Hv; unfold dispersion; rewrite (average_values _ _ Hv); simpl.
  rewrite (for_file_ok _ _ _ _ Hv); simpl.
  set (avr := (sum_of xs / as_f64 (List.length xs))%float).
  pose proof (sq_fold_fst avr xs 0%float O) as H1.
  pose proof (sq_fold_count avr xs 0%float O) as H2.
  destruct (fold_left _ xs _) as [sm l]; simpl in *; subst; reflexivity.
Qed.

Lemma sum_sq_pos avr xs : sf_pos_signed (Prim2SF (sum_sq avr xs)) = true.
Proof.
  unfold sum_sq; rewrite <- (sq_fold_fst avr xs 0%float O).
  apply sq_fold_pos; rewrite Prim2SF_zero; reflexivity.
Qed.

(** C5 (counterexample): the constant stream "0.1 0.1 0.1" has mean
    0.10000000000000002 (the rounded sum 0.30000000000000004 over 3), and its
    computed variance is 2^-112 (about 1.93e-34), not 0.  The values are the
    binary64 nearest 0.1, [0x1.999999999999ap-4]. *)
Lemma C5_counterexample :
  values (src_of "0.1 0.1 0.1") = Ok [0x1.999999999999ap-4; 0x1.999999999999ap-4; 0x1.999999999999ap-4]%float /\
  average (src_of "0.1 0.1 0.1") = Ok 0x1.999999999999bp-4%float /\
  dispersion (src_of "0.1 0.1 0.1") = Ok 0x1p-112%float /\
  (0x1p-112 =? 0)%float = false.
Proof. repeat split; vm_compute; reflexivity. Qed.

(** C5 (amended): after a successful scan of the values [xs], [dispersion]
    first takes the mean [avr] (by [average], a second scan of the source),
    then returns [r = (Σ (x - avr)²) / n] with [n] the count (division by [n],
    not [n - 1]); [r] is never below 0 (it is non-negative or NaN).  For a
    constant stream the result need not be exactly 0. *)
Theorem C5_dispersion_population src xs :
  values src = Ok xs ->
  exists avr r,
    average src = Ok avr /\
    avr = (sum_of xs / as_f64 (List.length xs))%float /\
    dispersion src = Ok r /\
    r = (sum_sq avr xs / as_f64 (List.length xs))%float /\
    (r <? 0)%float = false.
Proof.
  intros Hv.
  exists (sum_of xs / as_f64 (List.length xs))%float,
         (sum_sq (sum_of xs / as_f64 (List.length xs)) xs /
            as_f64 (List.length xs))%float.
  repeat split.
  - apply average_values, Hv.
  - apply dispersion_values, Hv.
  - apply pos_not_neg; rewrite FloatAxioms.div_spec.
    apply SFdiv_pos; [apply sum_sq_pos | apply as_f64_pos].
Qed.

Lemma C5_dispersion_population_witness :
  values (src_of "0.1 0.1 0.1") = Ok [0x1.999999999999ap-4; 0x1.999999999999ap-4; 0x1.999999999999ap-4]%float /\
  exists avr r,
    average (src_of "0.1 0.1 0.1") = Ok avr /\
    avr = (sum_of [0x1.999999999999ap-4; 0x1.999999999999ap-4; 0x1.999999999999ap-4]%float / as_f64 3)%float /\
    dispersion (src_of "0.1 0.1 0.1") = Ok r /\
    r = (sum_sq avr [0x1.999999999999ap-4; 0x1.999999999999ap-4; 0x1.999999999999ap-4]%float / as_f64 3)%float /\
    (r <? 0)%float = false.
Proof.
  assert (H : values (src_of "0.1 0.1 0.1") = Ok [0x1.999999999999ap-4; 0x1.999999999999ap-4; 0x1.999999999999ap-4]%float)
    by (vm_compute; reflexivity).
  split; [exact H | exact (C5_dispersion_population _ _ H)].
Defined.

(* ================================================================== *)
(** * Where the median search can move its left bound *)

Lemma is_median_Gt src xs mid :
  values src = Ok xs -> is_median src mid = Ok Gt ->
  (count_cmp Lt mid xs + count_cmp Eq mid xs < count_cmp Gt mid xs)%Z.
Proof.
  intros Hv; rewrite (is_median_counts _ _ _ Hv); cbv zeta.
  assert (0 <= count_cmp Eq mid xs)%Z by (unfold count_cmp; lia).
  destruct (Z.ltb_spec (Z.abs (count_cmp Gt mid xs - count_cmp Lt mid xs))
                       (count_cmp Eq mid xs + 1)); [discriminate|].
  destruct (Z.ltb_spec (count_cmp Gt mid xs) (count_cmp Lt mid xs));
    [discriminate|]; intros _; lia.
Qed.

Lemma bisect_reach_left src xs l r v r' :
  values src = Ok xs -> bisect_reach src l r v r' ->
  v = l \/ (count_cmp Lt v xs + count_cmp Eq v xs < count_cmp Gt v xs)%Z.
Proof.
  intros Hv Hr; induction Hr as [l r|l r l' r' l'' r'' Hs Hb Hr IH]; [now left|].
  unfold bisect_step in Hb.
  destruct (is_median src ((r + l) / 2)%float) as [[| |]|e|m] eqn:Em;
    simpl in Hb; inversion Hb; subst; auto.
  destruct IH as [->|IH]; [right; eapply is_median_Gt; eauto | now right].
Qed.

Lemma median_returns fuel src xs v :
  values src = Ok xs -> median fuel src = Some (Ok v) ->
  exists mn mx, min_max src = Ok (Some (mn, mx)) /\
    (v = mn \/ (count_cmp Lt v xs + count_cmp Eq v xs < count_cmp Gt v xs)%Z).
Proof.
  intros Hv; unfold median.
  destruct (min_max src) as [[[mn mx]|]|e|m]; try discriminate.
  intros H; exists mn, mx; split; [reflexivity|].
  destruct (find_median_returns _ _ _ _ _ H) as (r' & Hr & _).
  exact (bisect_reach_left _ _ _ _ _ _ Hv Hr).
Qed.

(* ================================================================== *)
(** * Binary64 rounding keeps representable bounds

    SpecFloat's addition and division round to nearest; the lemmas below
    show that the result stays between any two binary64 values around the
    exact result, so that the midpoint [(right + left) / 2] of
    [find_median] lies in [[left, right]], and relate the float order to
    the exact values. *)

Section Binary64_rounding.
Local Open Scope Z_scope.


Lemma pw_pos e : -1075 <= e -> 0 < pw e.
Proof. intros; unfold pw; apply Z.pow_pos_nonneg; lia. Qed.

Lemma pw_shift e k : -1075 <= e -> 0 <= k -> pw (e + k) = 2 ^ k * pw e.
Proof.
  intros; unfold pw. rewrite <- Z.pow_add_r by lia. f_equal; lia.
Qed.

Lemma pw_succ e : -1075 <= e -> pw (e + 1) = 2 * pw e.
Proof. intros; rewrite pw_shift by lia; reflexivity. Qed.

Lemma shr_1_holds mrs e X : -1075 <= e -> holds mrs e X -> holds (shr_1 mrs) (e + 1) X.
Proof.
  intros He [Hm [Hb Hl]]. destruct mrs as [m r s]; cbn [shr_m shr_r shr_s] in *.
  unfold holds. rewrite (pw_succ e He). set (P := pw e) in *.
  assert (HP : 0 < P) by (apply pw_pos; lia).
  destruct m as [|p|p]; [ | destruct p as [p|p|] | lia ]; cbn [shr_1 shr_m shr_r shr_s].
  - rewrite Z.mul_0_l in *. destruct r, s; cbn [orb] in *; repeat split; lia.
  - rewrite Pos2Z.inj_xI in *. set (A := Zpos p * P) in *.
    assert (E1 : (2 * Zpos p + 1) * P = 2 * A + P) by (unfold A; ring).
    assert (E2 : Zpos p * (2 * P) = 2 * A) by (unfold A; ring).
    assert (E3 : (Zpos p + 1) * (2 * P) = 2 * A + 2 * P) by (unfold A; ring).
    assert (E4 : (2 * Zpos p + 1 + 1) * P = 2 * A + 2 * P) by (unfold A; ring).
    destruct r, s; cbn [orb] in *; repeat split; lia.
  - rewrite Pos2Z.inj_xO in *. set (A := Zpos p * P) in *.
    assert (E1 : 2 * Zpos p * P = 2 * A) by (unfold A; ring).
    assert (E2 : Zpos p * (2 * P) = 2 * A) by (unfold A; ring).
    assert (E3 : (Zpos p + 1) * (2 * P) = 2 * A + 2 * P) by (unfold A; ring).
    assert (E4 : (2 * Zpos p + 1) * P = 2 * A + P) by (unfold A; ring).
    destruct r, s; cbn [orb] in *; repeat split; lia.
  - destruct r, s; cbn [orb] in *; repeat split; lia.
Qed.

Lemma iter_shr_1_holds p : forall mrs e X, -1075 <= e -> holds mrs e X ->
  holds (iter_pos shr_1 p mrs) (e + Zpos p) X.
Proof.
  induction p as [p IH|p IH|]; intros mrs e X He H; simpl.
  - replace (e + Zpos p~1) with (e + 1 + Zpos p + Zpos p) by lia.
    apply IH; [lia|]. apply IH; [lia|]. apply shr_1_holds; auto.
  - replace (e + Zpos p~0) with (e + Zpos p + Zpos p) by lia.
    apply IH; [lia|]. apply IH; auto.
  - apply shr_1_holds; auto.
Qed.

Lemma shr_holds mrs e n X : -1075 <= e -> holds mrs e X ->
  holds (fst (shr mrs e n)) (snd (shr mrs e n)) X /\ snd (shr mrs e n) = Z.max e (e + n).
Proof.
  intros He H; destruct n as [|p|p]; simpl.
  - split; [auto | lia].
  - split; [apply iter_shr_1_holds; auto | lia].
  - split; [auto | lia].
Qed.

Lemma digits2_pos_bounds p :
  2 ^ (Zpos (digits2_pos p) - 1) <= Zpos p < 2 ^ Zpos (digits2_pos p).
Proof.
  induction p as [p IH|p IH|]; cbn [digits2_pos].
  1, 2: rewrite Pos2Z.inj_succ;
    try replace (Zpos p~1) with (2 * Zpos p + 1) by lia;
    try replace (Zpos p~0) with (2 * Zpos p) by lia;
    set (d := Zpos (digits2_pos p)) in *;
    assert (1 <= d) by (unfold d; lia);
    replace (Z.succ d - 1) with d by lia;
    assert (E : 2 ^ d = 2 * 2 ^ (d - 1)) by (rewrite <- Z.pow_succ_r by lia; f_equal; lia);
    rewrite Z.pow_succ_r by lia; lia.
  - simpl. lia.
Qed.

Lemma pow2_lt_inv a b : 0 <= b -> 2 ^ a < 2 ^ b -> a < b.
Proof.
  intros Hb H. destruct (Z.lt_ge_cases a b) as [|Hba]; auto.
  pose proof (Z.pow_le_mono_r 2 b a ltac:(lia) Hba). lia.
Qed.

Lemma pw_le a b : -1075 <= a -> a <= b -> pw a <= pw b.
Proof. intros; unfold pw; apply Z.pow_le_mono_r; lia. Qed.

Lemma mul_lt_cancel a b P : 0 < P -> a * P < b * P -> a < b.
Proof. intros HP H. apply (Z.mul_lt_mono_pos_r P); auto. Qed.

Lemma mul_le_mono a b P : 0 <= P -> a <= b -> a * P <= b * P.
Proof. intros; apply Z.mul_le_mono_nonneg_r; auto. Qed.

Lemma Zdigits2_bounds m : 0 < m -> 2 ^ (Zdigits2 m - 1) <= m < 2 ^ Zdigits2 m.
Proof. destruct m as [|p|p]; try lia; intros _; apply digits2_pos_bounds. Qed.

Lemma Zdigits2_nonneg m : 0 <= Zdigits2 m.
Proof. destruct m; simpl; lia. Qed.

Lemma Zdigits2_zero : Zdigits2 0 = 0.
Proof. reflexivity. Qed.

Lemma Zdigits2_le m k : 0 <= m < 2 ^ k -> 0 <= k -> Zdigits2 m <= k.
Proof.
  intros Hm Hk. destruct (Z.eq_dec m 0) as [->|Hm0]; [simpl; lia|].
  pose proof (Zdigits2_bounds m ltac:(lia)) as [H1 H2].
  assert (Zdigits2 m - 1 < k) by (apply pow2_lt_inv; lia). lia.
Qed.

Lemma Zdigits2_ge m k : 0 <= k -> 2 ^ k <= m -> k + 1 <= Zdigits2 m.
Proof.
  intros Hk Hm. assert (0 < 2 ^ k) by (apply Z.pow_pos_nonneg; lia).
  pose proof (Zdigits2_bounds m ltac:(lia)) as [H1 H2].
  assert (k < Zdigits2 m) by (apply pow2_lt_inv; [apply Zdigits2_nonneg | lia]). lia.
Qed.

Lemma fexp64 e : fexp prec emax e = Z.max (e - 53) (-1074).
Proof. reflexivity. Qed.

Lemma emax_prec : (emax - prec = 971)%Z.
Proof. reflexivity. Qed.

Lemma shr_fexp_spec m e l X :
  -1074 <= e -> holds (shr_record_of_loc m l) e X ->
  e <= fexp prec emax (Zdigits2 m + e) ->
  holds (fst (shr_fexp prec emax m e l)) (snd (shr_fexp prec emax m e l)) X /\
  snd (shr_fexp prec emax m e l) = fexp prec emax (Zdigits2 m + e).
Proof.
  intros He H Ha. unfold shr_fexp.
  destruct (shr_holds (shr_record_of_loc m l) e (fexp prec emax (Zdigits2 m + e) - e) X)
    as [H1 H2]; [lia | auto |].
  split; [auto | rewrite H2; lia].
Qed.

Lemma rne_spec mrs e X : -1075 <= e -> holds mrs e X ->
  round_nearest_even (shr_m mrs) (loc_of_shr_record mrs) = shr_m mrs \/
  (round_nearest_even (shr_m mrs) (loc_of_shr_record mrs) = shr_m mrs + 1 /\
   shr_m mrs * pw e < X).
Proof.
  intros He [Hm [Hb Hl]]. pose proof (pw_pos e He).
  destruct mrs as [m r s]; cbn [shr_m shr_r shr_s] in *.
  destruct r, s; cbn [loc_of_shr_record round_nearest_even]; try (left; reflexivity).
  - right; split; [reflexivity | lia].
  - destruct (Z.even m); [left; reflexivity | right; split; [reflexivity | lia]].
Qed.

Lemma shr_fexp_exact_small m g : -1074 <= g -> 0 <= m < 2 ^ 53 ->
  shr_fexp prec emax m g loc_Exact = ({| shr_m := m; shr_r := false; shr_s := false |}, g).
Proof.
  intros Hg Hm. unfold shr_fexp. pose proof (Zdigits2_le m 53 Hm ltac:(lia)).
  rewrite fexp64. destruct (Z.max (Zdigits2 m + g - 53) (-1074) - g) eqn:Ed;
    [reflexivity | lia | reflexivity].
Qed.

Lemma shr_fexp_exact_top g : -1074 <= g ->
  shr_fexp prec emax 9007199254740992 g loc_Exact =
  ({| shr_m := 4503599627370496; shr_r := false; shr_s := false |}, g + 1).
Proof.
  intros Hg. unfold shr_fexp.
  replace (Zdigits2 9007199254740992) with 54 by reflexivity.
  rewrite fexp64. replace (Z.max (54 + g - 53) (-1074) - g) with 1 by lia.
  reflexivity.
Qed.

Lemma in_binary64_on_grid Y : in_binary64 Y -> on_grid Y.
Proof. intros [my [ey [H1 [H2 H3]]]]; exists my, ey; repeat split; lia. Qed.

Lemma pow52 : 2 ^ 52 = 4503599627370496.
Proof. reflexivity. Qed.

Lemma pow53 : 2 ^ 53 = 9007199254740992.
Proof. reflexivity. Qed.

Lemma in_binary64_lt Y : in_binary64 Y -> Y < pw 1024.
Proof.
  intros [my [ey [H1 [H2 ->]]]].
  replace 1024 with (971 + 53) by reflexivity. rewrite pw_shift by lia.
  pose proof (pw_le ey 971 ltac:(lia) ltac:(lia)). pose proof (pw_pos ey ltac:(lia)).
  assert (my * pw ey < 2 ^ 53 * pw ey) by (apply Z.mul_lt_mono_pos_r; lia).
  assert (2 ^ 53 * pw ey <= 2 ^ 53 * pw 971) by (apply Z.mul_le_mono_nonneg_l; lia).
  lia.
Qed.

Lemma shr_m_of_loc m l : shr_m (shr_record_of_loc m l) = m.
Proof. destruct l as [|[]]; reflexivity. Qed.

Lemma round_aux_mag sx mx ex lx X :
  -1074 <= ex -> holds (shr_record_of_loc mx lx) ex X ->
  ex <= fexp prec emax (Zdigits2 mx + ex) ->
  exists F, 0 <= F /\
    ((binary_round_aux prec emax sx mx ex lx = S754_infinity sx /\ pw 1024 <= F) \/
     (binary_round_aux prec emax sx mx ex lx = S754_zero sx /\ F = 0) \/
     (exists m e, binary_round_aux prec emax sx mx ex lx = S754_finite sx m e /\
        Zpos m * pw e = F)) /\
    (forall Y, on_grid Y -> Y <= X -> Y <= F) /\
    (forall Y, in_binary64 Y -> X <= Y -> F <= Y) /\
    (X = 0 -> F = 0).
Proof.
  intros Hex Hin Hal.
  pose proof Hin as [Hmx [Hxb _]]. rewrite shr_m_of_loc in Hmx, Hxb.
  destruct (shr_fexp_spec mx ex lx X Hex Hin Hal) as [Hh Hg].
  unfold binary_round_aux.
  destruct (shr_fexp prec emax mx ex lx) as [rec' g] eqn:E1. simpl in Hh, Hg.
  rewrite fexp64 in Hg, Hal.
  set (D := Zdigits2 mx) in *.
  assert (HD : 0 <= D) by apply Zdigits2_nonneg.
  assert (Hgmin : -1074 <= g) by lia.
  assert (HP : 0 < pw g) by (apply pw_pos; lia).
  assert (HPex : 0 < pw ex) by (apply pw_pos; lia).
  pose proof Hh as [Hm' [Hb' _]].
  set (m' := shr_m rec') in *.
  assert (HXup : X < pw (ex + D)).
  { rewrite (pw_shift ex D) by lia.
    assert (mx + 1 <= 2 ^ D).
    { destruct (Z.eq_dec mx 0) as [E|]; [subst D; rewrite E; simpl; lia|].
      pose proof (Zdigits2_bounds mx ltac:(lia)) as B; fold D in B; lia. }
    pose proof (mul_le_mono _ _ (pw ex) ltac:(lia) H). lia. }
  assert (Hm'53 : m' < 2 ^ 53).
  { apply (mul_lt_cancel _ _ (pw g) HP).
    rewrite <- pw_shift by lia.
    pose proof (pw_le (ex + D) (g + 53) ltac:(lia) ltac:(lia)). lia. }
  assert (Hnorm : -1074 < g -> g = D + ex - 53 /\ 2 ^ 52 * pw g <= X /\ 2 ^ 52 <= m').
  { intros Hgt.
    assert (Hmx0 : 0 < mx).
    { destruct (Z.eq_dec mx 0) as [E|]; [|lia]. exfalso.
      assert (D = 0) by (subst D; rewrite E; reflexivity). lia. }
    assert (HgD : g = D + ex - 53) by lia. split; auto.
    assert (HX52 : 2 ^ 52 * pw g <= X).
    { pose proof (Zdigits2_bounds mx Hmx0) as [B _]. fold D in B.
      rewrite <- pw_shift by lia.
      replace (g + 52) with (ex + (D - 1)) by lia. rewrite pw_shift by lia.
      pose proof (mul_le_mono _ _ (pw ex) ltac:(lia) B). lia. }
    split; auto.
    assert (2 ^ 52 < m' + 1) by (apply (mul_lt_cancel _ _ (pw g) HP); lia). lia. }
  pose proof (rne_spec rec' g X ltac:(lia) Hh) as Hr. fold m' in Hr.
  remember (round_nearest_even m' (loc_of_shr_record rec')) as mr eqn:Emr. clear Emr.
  assert (Hmr : 0 <= mr <= 2 ^ 53) by lia.
  assert (Hlow : forall Y, on_grid Y -> Y <= X -> Y <= m' * pw g).
  { intros Y [my [ey [Hmy [Hey ->]]]] HY. apply Z.nlt_ge; intro Hc.
    destruct (Z.le_gt_cases g ey) as [Hge|Hlt'].
    - replace (pw ey) with (2 ^ (ey - g) * pw g) in HY, Hc
        by (rewrite <- pw_shift by lia; f_equal; lia).
      rewrite Z.mul_assoc in HY, Hc.
      assert (m' < my * 2 ^ (ey - g)) by (apply (mul_lt_cancel _ _ (pw g) HP); lia).
      assert (my * 2 ^ (ey - g) < m' + 1) by (apply (mul_lt_cancel _ _ (pw g) HP); lia).
      lia.
    - destruct (Hnorm ltac:(lia)) as [_ [_ Hm52]].
      assert (E : pw g = 2 * pw (g - 1)) by (rewrite <- pw_succ by lia; f_equal; lia).
      pose proof (pw_le ey (g - 1) ltac:(lia) ltac:(lia)).
      pose proof (pw_pos ey ltac:(lia)).
      assert (my * pw ey < 2 ^ 53 * pw ey) by (apply Z.mul_lt_mono_pos_r; lia).
      assert (2 ^ 53 * pw ey <= 2 ^ 53 * pw (g - 1)) by (apply Z.mul_le_mono_nonneg_l; lia).
      assert (2 ^ 52 * pw g <= m' * pw g) by (apply mul_le_mono; lia).
      rewrite pow52, pow53 in *. lia. }
  assert (Hup : forall Y, in_binary64 Y -> X <= Y -> mr * pw g <= Y).
  { intros Y HYr HY. destruct Hr as [-> | [-> Hlt]]; [lia|].
    destruct HYr as [my [ey [Hmy [Hey ->]]]].
    destruct (Z.le_gt_cases g ey) as [Hge|Hlt'].
    - replace (pw ey) with (2 ^ (ey - g) * pw g) in HY |- *
        by (rewrite <- pw_shift by lia; f_equal; lia).
      rewrite Z.mul_assoc in HY |- *.
      assert (m' < my * 2 ^ (ey - g)) by (apply (mul_lt_cancel _ _ (pw g) HP); lia).
      apply mul_le_mono; lia.
    - exfalso. destruct (Hnorm ltac:(lia)) as [_ [HX52 _]].
      assert (E : pw g = 2 * pw (g - 1)) by (rewrite <- pw_succ by lia; f_equal; lia).
      pose proof (pw_le ey (g - 1) ltac:(lia) ltac:(lia)).
      pose proof (pw_pos ey ltac:(lia)).
      assert (my * pw ey < 2 ^ 53 * pw ey) by (apply Z.mul_lt_mono_pos_r; lia).
      assert (2 ^ 53 * pw ey <= 2 ^ 53 * pw (g - 1)) by (apply Z.mul_le_mono_nonneg_l; lia).
      rewrite pow52, pow53 in *. lia. }
  assert (Hzero : X = 0 -> mr * pw g = 0).
  { intros ->.
    destruct (Z.eq_dec m' 0) as [E|E];
      [|exfalso; assert (1 * pw g <= m' * pw g) by (apply mul_le_mono; lia); lia].
    destruct Hr as [-> | [_ Hlt]]; [rewrite E; reflexivity | lia]. }
  exists (mr * pw g). split; [apply Z.mul_nonneg_nonneg; lia|].
  split; [| split; [intros Y HY1 HY2; pose proof (Hlow Y HY1 HY2);
                    assert (m' * pw g <= mr * pw g) by (apply mul_le_mono; lia); lia
                   | split; auto]].
  assert (E1024 : pw 1024 = 2 ^ 53 * pw 971)
    by (rewrite <- pw_shift by lia; f_equal).
  destruct (Z.lt_ge_cases mr (2 ^ 53)) as [Hsm|Htop].
  - rewrite (shr_fexp_exact_small mr g) by lia. cbn [shr_m].
    destruct mr as [|p|p]; [right; left; split; [reflexivity|lia] | | lia].
    rewrite emax_prec. destruct (Z.leb_spec g 971).
    + right; right. exists p, g. split; reflexivity.
    + left. split; [reflexivity|].
      destruct (Hnorm ltac:(lia)) as [_ [_ Hm52]].
      assert (E : pw g = 2 * pw (g - 1)) by (rewrite <- pw_succ by lia; f_equal; lia).
      pose proof (pw_le 971 (g - 1) ltac:(lia) ltac:(lia)).
      assert (2 ^ 52 * pw g <= Zpos p * pw g) by (apply mul_le_mono; lia).
      rewrite pow52, pow53 in *. lia.
  - assert (mr = 9007199254740992) by (rewrite pow53 in *; lia). subst mr.
    rewrite (shr_fexp_exact_top g) by lia. cbn [shr_m]. rewrite emax_prec.
    destruct (Z.leb_spec (g + 1) 971).
    + right; right. exists 4503599627370496%positive, (g + 1). split; [reflexivity|].
      rewrite pw_succ by lia. lia.
    + left; split; [reflexivity|].
      pose proof (pw_le 971 g ltac:(lia) ltac:(lia)). rewrite pow53 in *. lia.
Qed.

Lemma on_grid_pos Y : on_grid Y -> 0 < Y.
Proof.
  intros [my [ey [H1 [H2 ->]]]]. pose proof (pw_pos ey ltac:(lia)).
  apply Z.mul_pos_pos; lia.
Qed.

Lemma in_binary64_pos Y : in_binary64 Y -> 0 < Y.
Proof. intros H; apply on_grid_pos, in_binary64_on_grid, H. Qed.

Lemma rounds_exact X R : sf_fin R = true -> sf_val R = X -> rounds X R.
Proof.
  intros Hf Hv; repeat split; intros; right; split; auto; lia.
Qed.

Lemma round_aux_rounds sx mx ex lx Xa :
  -1074 <= ex -> holds (shr_record_of_loc mx lx) ex Xa ->
  ex <= fexp prec emax (Zdigits2 mx + ex) ->
  rounds (cond_Zopp sx Xa) (binary_round_aux prec emax sx mx ex lx).
Proof.
  intros Hex Hin Hal.
  assert (HXa : 0 <= Xa).
  { destruct Hin as [Hm [Hb _]]. rewrite shr_m_of_loc in Hm, Hb.
    pose proof (pw_pos ex ltac:(lia)). pose proof (Z.mul_nonneg_nonneg mx (pw ex) Hm ltac:(lia)).
    lia. }
  destruct (round_aux_mag sx mx ex lx Xa Hex Hin Hal) as [F [HF [Hst [HL [HU HZ]]]]].
  assert (HLr : forall Y, in_binary64 Y -> Y <= Xa -> Y <= F)
    by (intros; apply HL; auto using in_binary64_on_grid).
  assert (P1024 : 0 < pw 1024) by (apply pw_pos; lia).
  destruct Hst as [[-> Hinf]|[[-> ->]|[m [e [-> <-]]]]]; destruct sx;
    unfold rounds; cbn [cond_Zopp sf_val sf_fin] in *; repeat split;
    intros Y HY HYX; try (destruct HY as [->|[HY|HY]]);
    repeat match goal with
    | H : on_grid ?Y |- _ =>
        pose proof (on_grid_pos Y H); pose proof (HL Y H); clear H
    | H : in_binary64 ?Y |- _ =>
        pose proof (in_binary64_pos Y H); pose proof (in_binary64_lt Y H);
        pose proof (HLr Y H); pose proof (HU Y H); clear H
    end;
    first [ left; reflexivity | right; split; [reflexivity | lia] | exfalso; lia ].
Qed.

Lemma iter_xO_val m d : Zpos (Pos.iter xO m d) = Zpos m * 2 ^ Zpos d.
Proof.
  induction d as [|d IH] using Pos.peano_ind.
  - simpl. lia.
  - rewrite Pos.iter_succ.
    replace (Zpos (Pos.iter xO m d)~0) with (2 * Zpos (Pos.iter xO m d)) by lia.
    rewrite IH, Pos2Z.inj_succ, Z.pow_succ_r by lia. ring.
Qed.

Lemma Zdigits2_iter_xO m d :
  Zdigits2 (Zpos (Pos.iter xO m d)) = Zpos (digits2_pos m) + Zpos d.
Proof.
  rewrite iter_xO_val. pose proof (digits2_pos_bounds m) as [B1 B2].
  set (D := Zpos (digits2_pos m)) in *.
  assert (1 <= D) by (unfold D; lia).
  assert (Hp : 0 < 2 ^ Zpos d) by (apply Z.pow_pos_nonneg; lia).
  apply Z.le_antisymm.
  - apply Zdigits2_le; [split|lia].
    + apply Z.mul_nonneg_nonneg; lia.
    + rewrite Z.pow_add_r by lia. apply Z.mul_lt_mono_pos_r; lia.
  - replace (D + Zpos d) with ((D - 1 + Zpos d) + 1) by lia.
    apply Zdigits2_ge; [lia|]. rewrite Z.pow_add_r by lia. apply mul_le_mono; lia.
Qed.

Lemma shl_align_cases mx ex ex' mz ez :
  shl_align mx ex ex' = (mz, ez) ->
  (ex' < ex /\ ez = ex' /\ Zpos mz = Zpos mx * 2 ^ (ex - ex') /\
   Zdigits2 (Zpos mz) = Zpos (digits2_pos mx) + (ex - ex')) \/
  (ex <= ex' /\ ez = ex /\ mz = mx).
Proof.
  unfold shl_align. destruct (ex' - ex) as [|d|d] eqn:E; intros H; injection H as <- <-.
  - right; repeat split; lia.
  - right; repeat split; lia.
  - left. replace (ex - ex') with (Zpos d) by lia.
    split; [lia|]. split; [reflexivity|]. split; [apply iter_xO_val | apply Zdigits2_iter_xO].
Qed.

Lemma shl_align_val mx ex ex' mz ez : -1075 <= ex' ->
  shl_align mx ex ex' = (mz, ez) -> Zpos mz * pw ez = Zpos mx * pw ex.
Proof.
  intros He H. destruct (shl_align_cases _ _ _ _ _ H) as [[H1 [-> [H3 _]]]|[_ [-> ->]]].
  - rewrite H3. replace ex with (ex' + (ex - ex')) at 2 by lia.
    rewrite pw_shift by lia. ring.
  - reflexivity.
Qed.

Lemma holds_exact m e : 0 <= m -> -1075 <= e ->
  holds (shr_record_of_loc m loc_Exact) e (m * pw e).
Proof.
  intros Hm He. pose proof (pw_pos e He). unfold holds; cbn [shr_record_of_loc shr_m shr_r shr_s].
  repeat split; lia.
Qed.

Lemma round_rounds sx n e : -1074 <= e ->
  rounds (cond_Zopp sx (Zpos n * pw e)) (binary_round prec emax sx n e).
Proof.
  intros He. unfold binary_round.
  destruct (shl_align n e (fexp prec emax (Zpos (digits2_pos n) + e))) as [mz ez] eqn:E.
  assert (Hez : -1074 <= ez).
  { destruct (shl_align_cases _ _ _ _ _ E) as [[_ [-> _]]|[_ [-> _]]]; rewrite ?fexp64; lia. }
  rewrite <- (shl_align_val n e (fexp prec emax (Zpos (digits2_pos n) + e)) mz ez);
    [| rewrite fexp64; lia | exact E].
  apply round_aux_rounds; auto.
  - apply holds_exact; lia.
  - destruct (shl_align_cases _ _ _ _ _ E) as [[_ [-> [_ Hd]]]|[Hle [-> ->]]].
    + rewrite Hd. rewrite !fexp64 in *. lia.
    + exact Hle.
Qed.

Lemma normalize_rounds N e : -1074 <= e ->
  rounds (N * pw e) (binary_normalize prec emax N e false).
Proof.
  intros He. destruct N as [|n|n]; cbn [binary_normalize].
  - apply rounds_exact; reflexivity.
  - apply (round_rounds false n e He).
  - replace (Zneg n * pw e) with (cond_Zopp true (Zpos n * pw e)) by (cbn [cond_Zopp]; lia).
    apply (round_rounds true n e He).
Qed.

Lemma valid_finite_bounds s m e : valid_binary (S754_finite s m e) = true ->
  -1074 <= e <= 971 /\ Zpos m < 2 ^ 53 /\ (-1074 < e -> 2 ^ 52 <= Zpos m).
Proof.
  unfold valid_binary, bounded, canonical_mantissa. intros H.
  apply andb_prop in H as [H1 H2]. apply Z.eqb_eq in H1. apply Z.leb_le in H2.
  rewrite fexp64 in H1. rewrite emax_prec in H2.
  pose proof (digits2_pos_bounds m) as [B1 B2].
  set (D := Zpos (digits2_pos m)) in *.
  assert (HD : D <= 53) by lia.
  pose proof (Z.pow_le_mono_r 2 D 53 ltac:(lia) HD).
  split; [lia|]. split; [lia|].
  intros Hgt. assert (D = 53) by lia. rewrite H0 in B1. exact B1.
Qed.

Lemma add_rounds x y : valid_binary x = true -> valid_binary y = true ->
  sf_fin x = true -> sf_fin y = true ->
  rounds (sf_val x + sf_val y) (SFadd prec emax x y).
Proof.
  intros Vx Vy Fx Fy.
  destruct x as [sx| | |sx mx ex]; try discriminate;
  destruct y as [sy| | |sy my ey]; try discriminate.
  - destruct sx, sy; apply rounds_exact; reflexivity.
  - apply rounds_exact; reflexivity.
  - apply rounds_exact; [reflexivity | cbn [SFadd sf_val]; lia].
  - apply valid_finite_bounds in Vx as [Bx _]. apply valid_finite_bounds in Vy as [By _].
    cbn [SFadd sf_val].
    set (ez := Z.min ex ey).
    assert (Ax : Zpos (fst (shl_align mx ex ez)) * pw ez = Zpos mx * pw ex).
    { destruct (shl_align mx ex ez) as [a b] eqn:E. simpl.
      destruct (shl_align_cases _ _ _ _ _ E) as [[_ [-> [H3 _]]]|[Hle [-> ->]]].
      - apply (shl_align_val mx ex ez); [unfold ez; lia | exact E].
      - replace ez with ex by (unfold ez; lia). reflexivity. }
    assert (Ay : Zpos (fst (shl_align my ey ez)) * pw ez = Zpos my * pw ey).
    { destruct (shl_align my ey ez) as [a b] eqn:E. simpl.
      destruct (shl_align_cases _ _ _ _ _ E) as [[_ [-> [H3 _]]]|[Hle [-> ->]]].
      - apply (shl_align_val my ey ez); [unfold ez; lia | exact E].
      - replace ez with ey by (unfold ez; lia). reflexivity. }
    replace (cond_Zopp sx (Zpos mx * pw ex) + cond_Zopp sy (Zpos my * pw ey)) with
      ((cond_Zopp sx (Zpos (fst (shl_align mx ex ez))) +
        cond_Zopp sy (Zpos (fst (shl_align my ey ez)))) * pw ez)
      by (rewrite <- Ax, <- Ay; destruct sx, sy; cbn [cond_Zopp]; ring).
    apply normalize_rounds. unfold ez; lia.
Qed.

Lemma div_core_eq m e :
  SFdiv_core_binary prec emax (Zpos m) e (Zpos 4503599627370496) (-51) =
  let e' := Z.min (fexp prec emax (Zdigits2 (Zpos m) + e - (53 + -51))) (e - -51) in
  let s := e - -51 - e' in
  let M := match s with Zpos _ => Z.shiftl (Zpos m) s | Z0 => Zpos m | Zneg _ => 0 end in
  let '(q, r) := Z.div_eucl M 4503599627370496 in
  (q, e', new_location 4503599627370496 r).
Proof. reflexivity. Qed.

Lemma div2_core m e q e' l : -1074 <= e -> Zpos m < 2 ^ 53 ->
  SFdiv_core_binary prec emax (Zpos m) e (Zpos 4503599627370496) (-51) = (q, e', l) ->
  -1074 <= e' /\ holds (shr_record_of_loc q l) e' (Zpos m * pw (e - 1)) /\
  e' <= fexp prec emax (Zdigits2 q + e').
Proof.
  intros He Hm H. rewrite div_core_eq in H. cbv zeta in H.
  pose proof (Zdigits2_bounds (Zpos m) ltac:(lia)) as [B1 B2].
  pose proof (Zdigits2_le (Zpos m) 53 ltac:(lia) ltac:(lia)) as B3.
  set (d1 := Zdigits2 (Zpos m)) in *.
  assert (Hd1 : 1 <= d1) by (unfold d1; simpl; lia).
  assert (HE : Z.min (fexp prec emax (d1 + e - (53 + -51))) (e - -51) =
               Z.max (d1 + e - 55) (-1074)) by (rewrite fexp64; lia).
  rewrite HE in H.
  set (E := Z.max (d1 + e - 55) (-1074)) in *.
  set (s := e - -51 - E) in *.
  assert (Hs : 0 <= s) by (unfold s, E; lia).
  set (M := match s with Zpos _ => Z.shiftl (Zpos m) s | Z0 => Zpos m | Zneg _ => 0 end) in *.
  assert (HM : M = Zpos m * 2 ^ s).
  { unfold M. destruct s; [simpl; lia | apply Z.shiftl_mul_pow2; lia | lia]. }
  set (K := 4503599627370496) in *.
  assert (HK : 0 < K) by (unfold K; lia).
  pose proof (Z_div_mod M K ltac:(lia)) as HDM.
  destruct (Z.div_eucl M K) as [qq r] eqn:Ediv.
  destruct HDM as [HMqr Hr].
  injection H as <- <- <-.
  assert (HEmin : -1074 <= E) by (unfold E; lia).
  split; [exact HEmin|].
  assert (HP : 0 < pw E) by (apply pw_pos; lia).
  set (X := Zpos m * pw (e - 1)).
  assert (HKX : K * X = (K * qq + r) * pw E).
  { rewrite <- HMqr, HM. unfold X, K.
    assert (E2 : 4503599627370496 * pw (e - 1) = 2 ^ s * pw E).
    { unfold pw. replace 4503599627370496 with (2 ^ 52) by reflexivity.
      rewrite <- !Z.pow_add_r by (unfold s, E; lia). f_equal. unfold s; lia. }
    transitivity (Zpos m * (4503599627370496 * pw (e - 1))); [ring|].
    rewrite E2. ring. }
  assert (Hq : 0 <= qq).
  { assert (0 <= M) by (rewrite HM; apply Z.mul_nonneg_nonneg; [lia | apply Z.pow_nonneg; lia]).
    destruct (Z.lt_ge_cases qq 0); [|lia]. nia. }
  assert (HT : K * (X - qq * pw E) = r * pw E) by (rewrite Z.mul_sub_distr_l; lia).
  split.
  - unfold holds. rewrite shr_m_of_loc.
    assert (H0 : 0 <= X - qq * pw E).
    { apply (Z.mul_le_mono_pos_l _ _ K HK). rewrite HT. apply Z.mul_nonneg_nonneg; lia. }
    assert (H1 : X - qq * pw E < pw E).
    { apply (Z.mul_lt_mono_pos_l K _ _ HK). rewrite HT. apply Z.mul_lt_mono_pos_r; lia. }
    split; [exact Hq|]. split; [lia|].
    unfold new_location. replace (Z.even K) with true by reflexivity.
    unfold new_location_even.
    destruct (Z.eqb_spec r 0) as [Hr0|Hr0].
    + cbn [shr_record_of_loc shr_r shr_s].
      assert (K * (X - qq * pw E) = 0) by (rewrite HT, Hr0; ring). nia.
    + assert (Hpos : 0 < X - qq * pw E).
      { apply (Z.mul_lt_mono_pos_l K _ _ HK). rewrite HT. apply Z.mul_pos_pos; lia. }
      destruct (Z.compare_spec (2 * r) K) as [Hc|Hc|Hc];
        cbn [shr_record_of_loc shr_r shr_s].
      * apply (Z.mul_cancel_l _ _ K); [lia|].
        replace (K * (2 * (X - qq * pw E))) with (2 * (K * (X - qq * pw E))) by ring.
        rewrite HT. rewrite <- Hc. ring.
      * split; [lia|].
        apply (Z.mul_lt_mono_pos_l K _ _ HK).
        replace (K * (2 * (X - qq * pw E))) with (2 * (K * (X - qq * pw E))) by ring.
        rewrite HT. replace (2 * (r * pw E)) with ((2 * r) * pw E) by ring.
        apply Z.mul_lt_mono_pos_r; lia.
      * apply (Z.mul_lt_mono_pos_l K _ _ HK).
        replace (K * (2 * (X - qq * pw E))) with (2 * (K * (X - qq * pw E))) by ring.
        rewrite HT. replace (2 * (r * pw E)) with ((2 * r) * pw E) by ring.
        apply Z.mul_lt_mono_pos_r; lia.
  - rewrite fexp64. unfold E at 1.
    destruct (Z.le_gt_cases (d1 + e - 55) (-1074)) as [Hsub|Hnorm].
    + lia.
    + assert (Hs' : s = 106 - d1) by (unfold s, E; lia).
      assert (HM105 : 2 ^ 105 <= M).
      { rewrite HM, Hs'. replace 105 with ((d1 - 1) + (106 - d1)) by lia.
        rewrite Z.pow_add_r by lia. apply mul_le_mono; [apply Z.pow_nonneg; lia | lia]. }
      assert (Hq53 : 2 ^ 53 <= qq).
      { assert (2 ^ 105 = K * 2 ^ 53) by reflexivity.
        assert (2 ^ 53 < qq + 1) by nia. lia. }
      pose proof (Zdigits2_ge qq 53 ltac:(lia) Hq53). lia.
Qed.

Lemma Prim2SF_two : Prim2SF 2%float = S754_finite false 4503599627370496 (-51).
Proof. vm_compute. reflexivity. Qed.

Lemma div2_rounds x X : valid_binary x = true -> sf_fin x = true -> 2 * X = sf_val x ->
  rounds X (SFdiv prec emax x (S754_finite false 4503599627370496 (-51))).
Proof.
  intros Vx Fx HX. destruct x as [sx| | |sx mx ex]; try discriminate.
  - cbn [sf_val] in HX. apply rounds_exact; [reflexivity | cbn [SFdiv sf_val]; lia].
  - apply valid_finite_bounds in Vx as [Bx [Mx _]].
    cbn [SFdiv].
    destruct (SFdiv_core_binary prec emax (Zpos mx) ex (Zpos 4503599627370496) (-51))
      as [[q e'] l] eqn:Ec.
    destruct (div2_core mx ex q e' l ltac:(lia) Mx Ec) as [He' [Hh Ha]].
    replace X with (cond_Zopp (xorb sx false) (Zpos mx * pw (ex - 1))).
    + apply round_aux_rounds; auto.
    + cbn [sf_val] in HX.
      assert (E : pw ex = 2 * pw (ex - 1)) by (rewrite <- pw_succ by lia; f_equal; lia).
      rewrite E in HX. destruct sx; cbn [xorb cond_Zopp] in *; lia.
Qed.

Lemma valid_val_bound f : valid_binary f = true -> sf_fin f = true ->
  - pw 1024 < sf_val f < pw 1024.
Proof.
  intros V F. assert (P : 0 < pw 1024) by (apply pw_pos; lia).
  destruct f as [s| | |s m e]; try discriminate; cbn [sf_val]; [lia|].
  apply valid_finite_bounds in V as [B [M _]].
  assert (H : in_binary64 (Zpos m * pw e)) by (exists (Zpos m), e; repeat split; lia).
  pose proof (in_binary64_lt _ H). pose proof (in_binary64_pos _ H).
  destruct s; cbn [cond_Zopp]; lia.
Qed.

Lemma valid_representable f : valid_binary f = true -> sf_fin f = true ->
  representable (sf_val f).
Proof.
  intros V F. destruct f as [s| | |s m e]; try discriminate; cbn [sf_val]; [left; reflexivity|].
  apply valid_finite_bounds in V as [B [M _]].
  assert (H : in_binary64 (Zpos m * pw e)) by (exists (Zpos m), e; repeat split; lia).
  destruct s; cbn [cond_Zopp]; right; [right; rewrite Z.opp_involutive | left]; exact H.
Qed.

Lemma rounds_lower X R a : rounds X R -> sf_fin R = true ->
  valid_binary a = true -> sf_fin a = true -> sf_val a <= X -> sf_val a <= sf_val R.
Proof.
  intros [_ [_ [H3 _]]] FR Va Fa Ha.
  destruct (H3 _ (valid_representable a Va Fa) Ha) as [->|[_ H]]; [discriminate | exact H].
Qed.

Lemma rounds_upper X R a : rounds X R -> sf_fin R = true ->
  valid_binary a = true -> sf_fin a = true -> X <= sf_val a -> sf_val R <= sf_val a.
Proof.
  intros [_ [_ [_ H4]]] FR Va Fa Ha.
  destruct (H4 _ (valid_representable a Va Fa) Ha) as [->|[_ H]]; [discriminate | exact H].
Qed.

Lemma rounds_double_lower X R a : rounds X R -> sf_fin R = true -> valid_binary R = true ->
  valid_binary a = true -> sf_fin a = true -> 2 * sf_val a <= X -> 2 * sf_val a <= sf_val R.
Proof.
  intros [H1 [H2 [H3 H4]]] FR VR Va Fa Ha.
  destruct a as [s| | |s m e]; try discriminate; cbn [sf_val] in *.
  - destruct (H3 0 ltac:(left; reflexivity) ltac:(lia)) as [->|[_ H]]; [discriminate | lia].
  - pose proof (valid_finite_bounds _ _ _ Va) as [B [M N]].
    assert (E : 2 * (Zpos m * pw e) = Zpos m * pw (e + 1)) by (rewrite pw_succ by lia; ring).
    destruct s; cbn [cond_Zopp] in *.
    + destruct (Z.le_gt_cases e 970) as [Hle|Hgt].
      * assert (HY : representable (- (Zpos m * pw (e + 1)))).
        { right; right. rewrite Z.opp_involutive. exists (Zpos m), (e + 1); repeat split; lia. }
        destruct (H3 _ HY ltac:(lia)) as [->|[_ H]]; [discriminate | lia].
      * pose proof (valid_val_bound R VR FR).
        assert (pw 1024 = 2 ^ 53 * pw 971)
          by (rewrite <- pw_shift by lia; reflexivity).
        assert (e = 971) by lia. subst e.
        assert (2 ^ 52 * pw 971 <= Zpos m * pw 971)
          by (apply mul_le_mono; [pose proof (pw_pos 971); lia | lia]).
        rewrite pow52, pow53 in *. lia.
    + assert (HY : on_grid (Zpos m * pw (e + 1))) by (exists (Zpos m), (e + 1); repeat split; lia).
      destruct (H1 _ HY ltac:(lia)) as [->|[_ H]]; [discriminate | lia].
Qed.

Lemma rounds_double_upper X R a : rounds X R -> sf_fin R = true -> valid_binary R = true ->
  valid_binary a = true -> sf_fin a = true -> X <= 2 * sf_val a -> sf_val R <= 2 * sf_val a.
Proof.
  intros [H1 [H2 [H3 H4]]] FR VR Va Fa Ha.
  destruct a as [s| | |s m e]; try discriminate; cbn [sf_val] in *.
  - destruct (H4 0 ltac:(left; reflexivity) ltac:(lia)) as [->|[_ H]]; [discriminate | lia].
  - pose proof (valid_finite_bounds _ _ _ Va) as [B [M N]].
    assert (E : 2 * (Zpos m * pw e) = Zpos m * pw (e + 1)) by (rewrite pw_succ by lia; ring).
    destruct s; cbn [cond_Zopp] in *.
    + assert (HY : on_grid (Zpos m * pw (e + 1))) by (exists (Zpos m), (e + 1); repeat split; lia).
      destruct (H2 _ HY ltac:(lia)) as [->|[_ H]]; [discriminate | lia].
    + destruct (Z.le_gt_cases e 970) as [Hle|Hgt].
      * assert (HY : representable (Zpos m * pw (e + 1))).
        { right; left. exists (Zpos m), (e + 1); repeat split; lia. }
        destruct (H4 _ HY ltac:(lia)) as [->|[_ H]]; [discriminate | lia].
      * pose proof (valid_val_bound R VR FR).
        assert (pw 1024 = 2 ^ 53 * pw 971)
          by (rewrite <- pw_shift by lia; reflexivity).
        assert (e = 971) by lia. subst e.
        assert (2 ^ 52 * pw 971 <= Zpos m * pw 971)
          by (apply mul_le_mono; [pose proof (pw_pos 971); lia | lia]).
        rewrite pow52, pow53 in *. lia.
Qed.

Lemma sf_val_half f : valid_binary f = true -> sf_fin f = true ->
  exists X, 2 * X = sf_val f.
Proof.
  intros V F. destruct f as [s| | |s m e]; try discriminate; cbn [sf_val].
  - exists 0; reflexivity.
  - apply valid_finite_bounds in V as [B _].
    exists (cond_Zopp s (Zpos m * pw (e - 1))).
    assert (E : pw e = 2 * pw (e - 1)) by (rewrite <- pw_succ by lia; f_equal; lia).
    rewrite E. destruct s; cbn [cond_Zopp]; ring.
Qed.

(** The midpoint [(r + l) / 2] of two finite values [l <= r], when finite,
    lies between them. *)
Lemma mid_between l r :
  sf_fin (Prim2SF l) = true -> sf_fin (Prim2SF r) = true ->
  sf_val (Prim2SF l) <= sf_val (Prim2SF r) ->
  sf_fin (Prim2SF ((r + l) / 2)%float) = true ->
  sf_val (Prim2SF l) <= sf_val (Prim2SF ((r + l) / 2)%float) <= sf_val (Prim2SF r).
Proof.
  intros Fl Fr Hlr Fm.
  pose proof (Prim2SF_valid ((r + l) / 2)%float) as Vm.
  pose proof (Prim2SF_valid (r + l)%float) as VS.
  pose proof (Prim2SF_valid l) as Vl. pose proof (Prim2SF_valid r) as Vr.
  rewrite div_spec, add_spec, Prim2SF_two in Fm, Vm |- *.
  rewrite add_spec in VS.
  unfold SF64div in *. unfold SF64add in *.
  set (S := SFadd prec emax (Prim2SF r) (Prim2SF l)) in *.
  assert (FS : sf_fin S = true) by (destruct S as [| [] | |]; try discriminate; reflexivity).
  pose proof (add_rounds _ _ Vr Vl Fr Fl) as HS. fold S in HS.
  pose proof (rounds_double_lower _ _ _ HS FS VS Vl Fl ltac:(lia)) as HA.
  pose proof (rounds_double_upper _ _ _ HS FS VS Vr Fr ltac:(lia)) as HB.
  destruct (sf_val_half S VS FS) as [X HX].
  pose proof (div2_rounds S X VS FS HX) as HM.
  split.
  - apply (rounds_lower X); auto. lia.
  - apply (rounds_upper X); auto. lia.
Qed.

Lemma pos_compare m1 e1 m2 e2 :
  -1074 <= e1 <= 971 -> Zpos m1 < 2 ^ 53 -> (-1074 < e1 -> 2 ^ 52 <= Zpos m1) ->
  -1074 <= e2 <= 971 -> Zpos m2 < 2 ^ 53 -> (-1074 < e2 -> 2 ^ 52 <= Zpos m2) ->
  Z.compare (Zpos m1 * pw e1) (Zpos m2 * pw e2) =
  match Z.compare e1 e2 with Lt => Lt | Gt => Gt | Eq => Pos.compare_cont Eq m1 m2 end.
Proof.
  intros B1 M1 N1 B2 M2 N2.
  destruct (Z.compare_spec e1 e2) as [->|Hlt|Hgt].
  - change (Pos.compare_cont Eq m1 m2) with (Z.compare (Zpos m1) (Zpos m2)).
    pose proof (pw_pos e2 ltac:(lia)).
    destruct (Z.compare_spec (Zpos m1) (Zpos m2)) as [E|E|E].
    + rewrite E. apply Z.compare_refl.
    + apply Z.compare_lt_iff. apply Z.mul_lt_mono_pos_r; lia.
    + apply Z.compare_gt_iff. apply Z.mul_lt_mono_pos_r; lia.
  - apply Z.compare_lt_iff.
    assert (E : pw (e1 + 1) = 2 * pw e1) by (apply pw_succ; lia).
    pose proof (pw_le (e1 + 1) e2 ltac:(lia) ltac:(lia)).
    pose proof (pw_pos e1 ltac:(lia)).
    assert (Zpos m1 * pw e1 < 2 ^ 53 * pw e1) by (apply Z.mul_lt_mono_pos_r; lia).
    assert (2 ^ 52 * pw e2 <= Zpos m2 * pw e2) by (apply mul_le_mono; [pose proof (pw_pos e2); lia | lia]).
    rewrite pow52, pow53 in *. lia.
  - apply Z.compare_gt_iff.
    assert (E : pw (e2 + 1) = 2 * pw e2) by (apply pw_succ; lia).
    pose proof (pw_le (e2 + 1) e1 ltac:(lia) ltac:(lia)).
    pose proof (pw_pos e2 ltac:(lia)).
    assert (Zpos m2 * pw e2 < 2 ^ 53 * pw e2) by (apply Z.mul_lt_mono_pos_r; lia).
    assert (2 ^ 52 * pw e1 <= Zpos m1 * pw e1) by (apply mul_le_mono; [pose proof (pw_pos e1); lia | lia]).
    rewrite pow52, pow53 in *. lia.
Qed.

Lemma SFcompare_fin s1 m1 e1 s2 m2 e2 :
  SFcompare (S754_finite s1 m1 e1) (S754_finite s2 m2 e2) =
  match s1, s2 with
  | true, false => Some Lt
  | false, true => Some Gt
  | false, false => Some match Z.compare e1 e2 with Lt => Lt | Gt => Gt | Eq => Pos.compare_cont Eq m1 m2 end
  | true, true => Some match Z.compare e1 e2 with Lt => Gt | Gt => Lt | Eq => CompOpp (Pos.compare_cont Eq m1 m2) end
  end.
Proof. destruct s1, s2; reflexivity. Qed.

Lemma compare_val f g : valid_binary f = true -> valid_binary g = true ->
  sf_fin f = true -> sf_fin g = true ->
  SFcompare f g = Some (Z.compare (sf_val f) (sf_val g)).
Proof.
  intros Vf Vg Ff Fg.
  destruct f as [sf| | |sf mf ef]; try discriminate;
  destruct g as [sg| | |sg mg eg]; try discriminate.
  - reflexivity.
  - assert (0 < Zpos mg * pw eg)
      by (apply valid_finite_bounds in Vg as [B _]; apply Z.mul_pos_pos; [lia | apply pw_pos; lia]).
    destruct sg; cbn [SFcompare sf_val cond_Zopp]; f_equal; symmetry;
      [apply Z.compare_gt_iff | apply Z.compare_lt_iff]; lia.
  - assert (0 < Zpos mf * pw ef)
      by (apply valid_finite_bounds in Vf as [B _]; apply Z.mul_pos_pos; [lia | apply pw_pos; lia]).
    destruct sf; cbn [SFcompare sf_val cond_Zopp]; f_equal; symmetry;
      [apply Z.compare_lt_iff | apply Z.compare_gt_iff]; lia.
  - apply valid_finite_bounds in Vf as [B1 [M1 N1]].
    apply valid_finite_bounds in Vg as [B2 [M2 N2]].
    pose proof (pos_compare mf ef mg eg B1 M1 N1 B2 M2 N2) as Hc.
    assert (0 < Zpos mf * pw ef) by (apply Z.mul_pos_pos; [lia | apply pw_pos; lia]).
    assert (0 < Zpos mg * pw eg) by (apply Z.mul_pos_pos; [lia | apply pw_pos; lia]).
    rewrite SFcompare_fin.
    destruct sf, sg; cbn [sf_val cond_Zopp]; f_equal.
    + rewrite Z.compare_opp, (Z.compare_antisym (Zpos mf * pw ef)), Hc.
      destruct (Z.compare ef eg); reflexivity.
    + symmetry; apply Z.compare_lt_iff; lia.
    + symmetry; apply Z.compare_gt_iff; lia.
    + rewrite Hc. reflexivity.
Qed.

Lemma leb_val x y : sf_fin (Prim2SF x) = true -> sf_fin (Prim2SF y) = true ->
  (x <=? y)%float = (sf_val (Prim2SF x) <=? sf_val (Prim2SF y)).
Proof.
  intros Fx Fy. rewrite leb_spec. unfold SFleb.
  rewrite (compare_val _ _ (Prim2SF_valid x) (Prim2SF_valid y) Fx Fy).
  destruct (Z.compare_spec (sf_val (Prim2SF x)) (sf_val (Prim2SF y)));
    symmetry; [apply Z.leb_le | apply Z.leb_le | apply Z.leb_gt]; lia.
Qed.

Lemma ltb_val x y : sf_fin (Prim2SF x) = true -> sf_fin (Prim2SF y) = true ->
  (x <? y)%float = (sf_val (Prim2SF x) <? sf_val (Prim2SF y)).
Proof.
  intros Fx Fy. rewrite ltb_spec. unfold SFltb.
  rewrite (compare_val _ _ (Prim2SF_valid x) (Prim2SF_valid y) Fx Fy).
  destruct (Z.compare_spec (sf_val (Prim2SF x)) (sf_val (Prim2SF y)));
    symmetry; [apply Z.ltb_ge | apply Z.ltb_lt | apply Z.ltb_ge]; lia.
Qed.

Lemma mid_nonfinite l r :
  sf_fin (Prim2SF l) = false \/ sf_fin (Prim2SF r) = false ->
  sf_fin (Prim2SF ((r + l) / 2)%float) = false.
Proof.
  rewrite div_spec, add_spec, Prim2SF_two. unfold SF64div, SF64add.
  destruct (Prim2SF l) as [[]|[]| |[] ml el], (Prim2SF r) as [[]|[]| |[] mr er];
    cbn [sf_fin]; intros [H|H]; try discriminate; reflexivity.
Qed.

Lemma stop_finite v r :
  (abs (v - r) <=? tolerance)%float = true ->
  sf_fin (Prim2SF v) = true /\ sf_fin (Prim2SF r) = true.
Proof.
  rewrite leb_spec, abs_spec, sub_spec. unfold SF64sub.
  replace (Prim2SF tolerance) with (S754_finite false 4611686018427388 (-62)) by (vm_compute; reflexivity).
  destruct (Prim2SF v) as [[]|[]| |[] mv ev], (Prim2SF r) as [[]|[]| |[] mr er];
    cbn [sf_fin]; intros H; try (split; reflexivity); vm_compute in H; discriminate.
Qed.

(** A non-finite bound is never left: the midpoint of an interval with a
    non-finite bound is non-finite. *)
Lemma reach_nonfinite src l r v r' :
  bisect_reach src l r v r' ->
  sf_fin (Prim2SF l) = false \/ sf_fin (Prim2SF r) = false ->
  sf_fin (Prim2SF v) = false \/ sf_fin (Prim2SF r') = false.
Proof.
  induction 1 as [l r|l r l' r' l'' r'' Hs Hb Hr IH]; intros H; [exact H|].
  apply IH. pose proof (mid_nonfinite l r H) as Hm.
  unfold bisect_step in Hb.
  destruct (is_median src ((r + l) / 2)%float) as [[| |]|e|m];
    simpl in Hb; try discriminate; injection Hb as <- <-; auto.
Qed.

(** Along the search, with finite bounds, the interval only shrinks. *)
Lemma reach_bounds src l r v r' :
  bisect_reach src l r v r' ->
  sf_fin (Prim2SF v) = true -> sf_fin (Prim2SF r') = true ->
  sf_fin (Prim2SF l) = true -> sf_fin (Prim2SF r) = true ->
  sf_val (Prim2SF l) <= sf_val (Prim2SF r) ->
  sf_val (Prim2SF l) <= sf_val (Prim2SF v) /\
  sf_val (Prim2SF v) <= sf_val (Prim2SF r') /\
  sf_val (Prim2SF r') <= sf_val (Prim2SF r).
Proof.
  induction 1 as [l r|l r l' r' l'' r'' Hs Hb Hr IH];
    intros Fv Fr' Fl Fr Hlr; [lia|].
  unfold bisect_step in Hb.
  assert (Fm : sf_fin (Prim2SF ((r + l) / 2)%float) = true).
  { destruct (sf_fin (Prim2SF ((r + l) / 2)%float)) eqn:E; [reflexivity|].
    exfalso.
    destruct (is_median src ((r + l) / 2)%float) as [[| |]|e|m];
      simpl in Hb; try discriminate; injection Hb as <- <-;
      destruct (reach_nonfinite _ _ _ _ _ Hr ltac:(auto)); congruence. }
  destruct (mid_between l r Fl Fr Hlr Fm) as [M1 M2].
  destruct (is_median src ((r + l) / 2)%float) as [[| |]|e|m];
    simpl in Hb; try discriminate; injection Hb as <- <-;
    destruct IH as (A & B & C); auto; lia.
Qed.

Lemma fin_not_nan x : sf_fin (Prim2SF x) = true -> PrimFloat.is_nan x = false.
Proof.
  intros H; destruct (PrimFloat.is_nan x) eqn:E; [|reflexivity].
  apply is_nan_Prim2SF in E; rewrite E in H; discriminate.
Qed.

(** A returned median lies between the bounds the search starts from. *)
Lemma median_bounds fuel src mn mx v :
  min_max src = Ok (Some (mn, mx)) -> median fuel src = Some (Ok v) ->
  (forall y, y = mn -> (mx <? y)%float = false) ->
  (mn <=? v)%float = true /\ (v <=? mx)%float = true.
Proof.
  intros Hmm Hm Hg.
  unfold median in Hm; rewrite Hmm in Hm.
  destruct (find_median_returns _ _ _ _ _ Hm) as (r' & Hr & Hst).
  destruct (stop_finite _ _ Hst) as [Fv Fr'].
  assert (Fmn : sf_fin (Prim2SF mn) = true /\ sf_fin (Prim2SF mx) = true).
  { destruct (sf_fin (Prim2SF mn)) eqn:E1, (sf_fin (Prim2SF mx)) eqn:E2; auto;
      destruct (reach_nonfinite _ _ _ _ _ Hr ltac:(auto)); congruence. }
  destruct Fmn as [Fmn Fmx].
  assert (Hle : sf_val (Prim2SF mn) <= sf_val (Prim2SF mx)).
  { pose proof (Hg mn eq_refl) as H. rewrite ltb_val in H by assumption.
    apply Z.ltb_ge in H; exact H. }
  destruct (reach_bounds _ _ _ _ _ Hr Fv Fr' Fmn Fmx Hle) as (A & B & C).
  rewrite !leb_val by assumption. split; apply Z.leb_le; lia.
Qed.
End Binary64_rounding.

(** C9 (counterexample): the mean can leave [[min, max]].  Three copies of
    0.1 give the mean [0x1.999999999999bp-4] above the maximum
    [0x1.999999999999ap-4]; two copies of 1e308 overflow the sum, and the
    mean is [+inf] while the maximum is finite. *)
Lemma C9_counterexample :
  average (src_of "0.1 0.1 0.1") = Ok 0x1.999999999999bp-4%float /\
  min_max (src_of "0.1 0.1 0.1") =
    Ok (Some (0x1.999999999999ap-4, 0x1.999999999999ap-4)%float) /\
  (0x1.999999999999ap-4 <? 0x1.999999999999bp-4)%float = true /\
  average (src_of "1e308 1e308") = Ok infinity /\
  match min_max (src_of "1e308 1e308") with
  | Ok (Some (mn, mx)) => (mx <? infinity)%float && negb (PrimFloat.is_nan mx)
  | _ => false
  end = true.
Proof. repeat split; vm_compute; reflexivity. Qed.

(** C9 (amended): when the median search returns a value [v] on a source
    whose values are [xs], [min_max] returned [Some (mn, mx)] with [mn] and
    [mx] the least and greatest values of [xs] (in the sense of C6), and
    [mn <= v <= mx] as floats.  Moreover [v] is [mn] itself or a midpoint
    for which strictly more values are [total_cmp]-greater than [v] than are
    less than or equal to it.  The mean has no such bound (see the
    counterexample). *)
Theorem C9_median_between fuel src xs v :
  values src = Ok xs -> median fuel src = Some (Ok v) ->
  exists mn mx,
    min_max src = Ok (Some (mn, mx)) /\
    least_of xs mn /\ greatest_of xs mx /\
    (mn <=? v)%float = true /\ (v <=? mx)%float = true /\
    (v = mn \/ (count_cmp Lt v xs + count_cmp Eq v xs < count_cmp Gt v xs)%Z).
Proof.
  intros Hv Hm.
  destruct (median_returns _ _ _ _ Hv Hm) as (mn & mx & Hmm & Hvm).
  assert (Hne : xs <> []).
  { intros ->; rewrite (min_max_values _ _ Hv) in Hmm; discriminate. }
  destruct (min_fold xs Hne) as (mn' & Hmn' & Hl).
  destruct (max_fold xs Hne) as (mx' & Hmx' & Hg).
  assert (Hmm' : min_max src = Ok (Some (mn', mx')))
    by (rewrite (min_max_values _ _ Hv), Hmn', Hmx'; reflexivity).
  rewrite Hmm' in Hmm; injection Hmm as <- <-.
  assert (Hg' : forall y, y = mn' -> (mx' <? y)%float = false).
  { intros y ->. destruct Hl as (Hin & _ & _). destruct Hg as (_ & Hgt & _).
    destruct (PrimFloat.is_nan mn') eqn:En.
    - apply ltb_nan_r; exact En.
    - apply Hgt; assumption. }
  destruct (median_bounds _ _ _ _ _ Hmm' Hm Hg') as [B1 B2].
  exists mn', mx'.
  split; [exact Hmm'|split; [exact Hl|split; [exact Hg|split; [exact B1|split; [exact B2|exact Hvm]]]]].
Qed.

Lemma C9_median_between_witness :
  values (src_of "1 2 3 4 5") = Ok [1; 2; 3; 4; 5]%float /\
  median 100 (src_of "1 2 3 4 5") = Some (Ok 2.9990234375%float) /\
  exists mn mx,
    min_max (src_of "1 2 3 4 5") = Ok (Some (mn, mx)) /\
    least_of [1; 2; 3; 4; 5]%float mn /\ greatest_of [1; 2; 3; 4; 5]%float mx /\
    (mn <=? 2.9990234375)%float = true /\ (2.9990234375 <=? mx)%float = true /\
    (2.9990234375%float = mn \/
     (count_cmp Lt 2.9990234375%float [1; 2; 3; 4; 5]%float +
      count_cmp Eq 2.9990234375%float [1; 2; 3; 4; 5]%float <
      count_cmp Gt 2.9990234375%float [1; 2; 3; 4; 5]%float)%Z).
Proof.
  assert (Hv : values (src_of "1 2 3 4 5") = Ok [1; 2; 3; 4; 5]%float)
    by (vm_compute; reflexivity).
  assert (Hm : median 100 (src_of "1 2 3 4 5") = Some (Ok 2.9990234375%float))
    by (vm_compute; reflexivity).
  split; [exact Hv | split; [exact Hm | exact (C9_median_between _ _ _ _ Hv Hm)]].
Defined.

(* ================================================================== *)
(** * Special binary64 values *)

Lemma float_classes c :
  (exists s, Prim2SF c = S754_zero s) \/
  (exists s m e, Prim2SF c = S754_finite s m e) \/
  c = nan \/ c = infinity \/ c = neg_infinity.
Proof.
  destruct (Prim2SF c) as [s|s| |s m e] eqn:E.
  - left; eauto.
  - right; right; right; destruct s; [right|left]; apply FloatAxioms.Prim2SF_inj;
      rewrite E; vm_compute; reflexivity.
  - right; right; left; apply FloatAxioms.Prim2SF_inj; rewrite E; vm_compute; reflexivity.
  - right; left; eauto.
Qed.

Lemma Prim2SF_infinity : Prim2SF infinity = S754_infinity false.
Proof. vm_compute; reflexivity. Qed.

Lemma finite_is_finite c :
  (exists s, Prim2SF c = S754_zero s) \/ (exists s m e, Prim2SF c = S754_finite s m e) ->
  PrimFloat.is_finite c = true.
Proof.
  intros Hc; unfold PrimFloat.is_finite, PrimFloat.is_infinity.
  assert (Hn : PrimFloat.is_nan c = false).
  { destruct (PrimFloat.is_nan c) eqn:En; [|reflexivity].
    apply is_nan_Prim2SF in En;
      destruct Hc as [(s & E)|(s & m & e & E)]; congruence. }
  rewrite Hn, FloatAxioms.eqb_spec, FloatAxioms.abs_spec, Prim2SF_infinity.
  destruct Hc as [(s & E)|(s & m & e & E)]; rewrite E; reflexivity.
Qed.

Lemma sub_self c :
  (exists s, Prim2SF c = S754_zero s) \/ (exists s m e, Prim2SF c = S754_finite s m e) ->
  (c - c)%float = 0%float.
Proof.
  intros Hc; apply FloatAxioms.Prim2SF_inj.
  rewrite FloatAxioms.sub_spec, Prim2SF_zero.
  destruct Hc as [(s & E)|(s & m & e & E)]; rewrite E.
  - destruct s; reflexivity.
  - unfold SF64sub, SFsub; cbv iota beta; rewrite Z.sub_diag; reflexivity.
Qed.

Lemma total_cmp_refl c : total_cmp c c = Eq.
Proof.
  unfold total_cmp; destruct (Prim2SF c) as [s|s| |s m e] eqn:E.
  - destruct s; reflexivity.
  - destruct s; reflexivity.
  - reflexivity.
  - rewrite SFcompare_key by discriminate; rewrite lex3_refl; destruct s; reflexivity.
Qed.

Lemma fmin_self c : fmin c c = c.
Proof. unfold fmin; destruct (PrimFloat.is_nan c), (c <? c)%float; reflexivity. Qed.

Lemma fmax_self c : fmax c c = c.
Proof. unfold fmax; destruct (PrimFloat.is_nan c), (c <? c)%float; reflexivity. Qed.

Lemma min_fold_const c xs acc :
  (forall x, In x xs -> x = c) -> acc = None \/ acc = Some c ->
  xs <> [] \/ acc = Some c -> fold_left min_step xs acc = Some c.
Proof.
  revert acc; induction xs as [|x xs IH]; intros acc Hx Ha Hne; simpl.
  - destruct Hne as [Hne | ->]; [congruence|reflexivity].
  - rewrite (Hx x (or_introl eq_refl)); apply IH; auto.
    + intros y Hy; apply Hx; now right.
    + right; unfold min_step; destruct Ha as [-> | ->]; simpl; now rewrite fmin_self.
    + right; unfold min_step; destruct Ha as [-> | ->]; simpl; now rewrite fmin_self.
Qed.

Lemma max_fold_const c xs acc :
  (forall x, In x xs -> x = c) -> acc = None \/ acc = Some c ->
  xs <> [] \/ acc = Some c -> fold_left max_step xs acc = Some c.
Proof.
  revert acc; induction xs as [|x xs IH]; intros acc Hx Ha Hne; simpl.
  - destruct Hne as [Hne | ->]; [congruence|reflexivity].
  - rewrite (Hx x (or_introl eq_refl)); apply IH; auto.
    + intros y Hy; apply Hx; now right.
    + right; unfold max_step; destruct Ha as [-> | ->]; simpl; now rewrite fmax_self.
    + right; unfold max_step; destruct Ha as [-> | ->]; simpl; now rewrite fmax_self.
Qed.

Lemma min_max_const src xs c :
  values src = Ok xs -> xs <> [] -> (forall x, In x xs -> x = c) ->
  min_max src = Ok (Some (c, c)).
Proof.
  intros Hv Hne Hx; rewrite (min_max_values _ _ Hv).
  rewrite (min_fold_const c xs None), (max_fold_const c xs None); auto.
Qed.

(** The counters of a scan where every value compares the same way. *)
Lemma count_uniform (c c' : comparison) v xs :
  (forall x, In x xs -> total_cmp x v = c) ->
  count_cmp c' v xs =
    (if match c, c' with Lt, Lt | Eq, Eq | Gt, Gt => true | _, _ => false end
     then Z.of_nat (List.length xs) else 0)%Z.
Proof.
  induction xs as [|x xs IH]; intros H; [destruct c, c'; reflexivity|].
  rewrite count_cmp_cons, IH by (intros y Hy; apply H; now right).
  unfold cmp_is; rewrite (H x (or_introl eq_refl)).
  cbn [List.length]; destruct c, c'; lia.
Qed.

Lemma is_median_const src xs c :
  values src = Ok xs -> (forall x, In x xs -> x = c) -> is_median src c = Ok Eq.
Proof.
  intros Hv Hx; rewrite (is_median_counts _ _ _ Hv); cbv zeta.
  assert (Hu : forall x, In x xs -> total_cmp x c = Eq)
    by (intros x Hin; rewrite (Hx x Hin); apply total_cmp_refl).
  rewrite !(count_uniform Eq _ c xs Hu); simpl.
  replace (Z.ltb 0 (Z.of_nat (List.length xs) + 1)) with true; [reflexivity|].
  symmetry; apply Z.ltb_lt; lia.
Qed.

(* ================================================================== *)
(** * Further properties of the statistics *)

(** [median] on a stream whose values all equal one finite [c] returns [c]
    at the first call of [find_median], without a counting scan. *)
Theorem median_constant_finite fuel src xs c :
  values src = Ok xs -> xs <> [] -> (forall x, In x xs -> x = c) ->
  PrimFloat.is_finite c = true ->
  median (S fuel) src = Some (Ok c).
Proof.
  intros Hv Hne Hx Hf; unfold median; rewrite (min_max_const _ _ _ Hv Hne Hx).
  cbn [find_median].
  destruct (float_classes c) as [Hc|[Hc|[-> | [-> | ->]]]];
    try (vm_compute in Hf; discriminate).
  all: rewrite (sub_self c) by auto;
    replace ((abs 0 <=? tolerance)%float) with true by (vm_compute; reflexivity);
    reflexivity.
Qed.

Lemma median_constant_finite_witness :
  values (src_of "2.5 2.5 2.5") = Ok [2.5; 2.5; 2.5]%float /\
  median 1 (src_of "2.5 2.5 2.5") = Some (Ok 2.5%float).
Proof.
  assert (Hv : values (src_of "2.5 2.5 2.5") = Ok [2.5; 2.5; 2.5]%float)
    by (vm_compute; reflexivity).
  split; [exact Hv|].
  apply (median_constant_finite 0 _ [2.5; 2.5; 2.5]%float 2.5%float Hv).
  - discriminate.
  - intros x Hx; simpl in Hx; intuition.
  - vm_compute; reflexivity.
Defined.

(** On a stream whose values all equal one NaN or infinite [c], [median]
    never returns: [|c - c|] is NaN, the midpoint [(c + c) / 2] is [c], every
    value counts as equal to it, and the search stays on [[c, c]]. *)
Theorem median_constant_nonfinite fuel src xs c :
  values src = Ok xs -> xs <> [] -> (forall x, In x xs -> x = c) ->
  PrimFloat.is_finite c = false ->
  median fuel src = None.
Proof.
  intros Hv Hne Hx Hf; unfold median; rewrite (min_max_const _ _ _ Hv Hne Hx).
  destruct (float_classes c) as [Hc|[Hc|[Ec|[Ec|Ec]]]];
    try (rewrite finite_is_finite in Hf by auto; discriminate).
  all: apply find_median_stuck;
    [ rewrite Ec; vm_compute; reflexivity
    | unfold bisect_step;
      replace ((c + c) / 2)%float with c by (rewrite Ec; vm_compute; reflexivity);
      rewrite (is_median_const _ _ _ Hv Hx); reflexivity ].
Qed.

Lemma median_constant_nonfinite_witness :
  values (src_of "inf inf") = Ok [infinity; infinity] /\
  median 50 (src_of "inf inf") = None.
Proof.
  assert (Hv : values (src_of "inf inf") = Ok [infinity; infinity])
    by (vm_compute; reflexivity).
  split; [exact Hv|].
  apply (median_constant_nonfinite 50 _ [infinity; infinity] infinity Hv).
  - discriminate.
  - intros x Hx; simpl in Hx; intuition.
  - vm_compute; reflexivity.
Defined.

(** [is_median] at a value [v]: [Equal] on an empty stream; [Less] when
    every value is [total_cmp]-below [v]; [Greater] when every value is
    above it. *)
Theorem is_median_extremes src xs v :
  values src = Ok xs ->
  (xs = [] -> is_median src v = Ok Eq) /\
  (xs <> [] -> (forall x, In x xs -> total_cmp x v = Lt) -> is_median src v = Ok Lt) /\
  (xs <> [] -> (forall x, In x xs -> total_cmp x v = Gt) -> is_median src v = Ok Gt).
Proof.
  intros Hv; rewrite (is_median_counts _ _ _ Hv); cbv zeta.
  assert (Hlen : xs <> [] -> (0 < Z.of_nat (List.length xs))%Z).
  { intros Hne; destruct xs; [congruence|simpl; lia]. }
  split; [|split].
  - intros ->; reflexivity.
  - intros Hne Hu; rewrite !(count_uniform Lt _ v xs Hu); simpl.
    specialize (Hlen Hne).
    repeat match goal with |- context [Z.ltb ?a ?b] => destruct (Z.ltb_spec a b) end;
      try reflexivity; lia.
  - intros Hne Hu; rewrite !(count_uniform Gt _ v xs Hu); simpl.
    specialize (Hlen Hne).
    repeat match goal with |- context [Z.ltb ?a ?b] => destruct (Z.ltb_spec a b) end;
      try reflexivity; lia.
Qed.

Lemma is_median_extremes_witness :
  values (src_of "1 2 3") = Ok [1; 2; 3]%float /\
  is_median (src_of "1 2 3") 10%float = Ok Lt /\
  is_median (src_of "1 2 3") 0%float = Ok Gt.
Proof.
  assert (Hv : values (src_of "1 2 3") = Ok [1; 2; 3]%float) by (vm_compute; reflexivity).
  destruct (is_median_extremes _ _ 10%float Hv) as (_ & H1 & _).
  destruct (is_median_extremes _ _ 0%float Hv) as (_ & _ & H2).
  split; [exact Hv|split].
  - apply H1; [discriminate|]; intros x Hx; simpl in Hx;
      destruct Hx as [<-|[<-|[<-|[]]]]; vm_compute; reflexivity.
  - apply H2; [discriminate|]; intros x Hx; simpl in Hx;
      destruct Hx as [<-|[<-|[<-|[]]]]; vm_compute; reflexivity.
Defined.

Lemma add_nan_l x y : Prim2SF x = S754_nan -> Prim2SF (x + y)%float = S754_nan.
Proof. intros E; rewrite FloatAxioms.add_spec, E; reflexivity. Qed.

Lemma add_nan_r x y : Prim2SF y = S754_nan -> Prim2SF (x + y)%float = S754_nan.
Proof. intros E; rewrite FloatAxioms.add_spec, E; destruct (Prim2SF x); reflexivity. Qed.

Lemma sub_nan_r x y : Prim2SF y = S754_nan -> Prim2SF (x - y)%float = S754_nan.
Proof. intros E; rewrite FloatAxioms.sub_spec, E; destruct (Prim2SF x); reflexivity. Qed.

Lemma mul_nan x y : Prim2SF x = S754_nan -> Prim2SF (x * y)%float = S754_nan.
Proof. intros E; rewrite FloatAxioms.mul_spec, E; reflexivity. Qed.

Lemma div_nan x y : Prim2SF x = S754_nan -> Prim2SF (x / y)%float = S754_nan.
Proof. intros E; rewrite FloatAxioms.div_spec, E; reflexivity. Qed.

Lemma sum_fold_nan_acc xs acc :
  Prim2SF acc = S754_nan ->
  Prim2SF (fold_left (fun acc x => acc + x)%float xs acc) = S754_nan.
Proof.
  revert acc; induction xs as [|x xs IH]; intros acc E; simpl; auto.
  apply IH, add_nan_l, E.
Qed.

Lemma sum_fold_nan xs acc x :
  In x xs -> Prim2SF x = S754_nan ->
  Prim2SF (fold_left (fun acc x => acc + x)%float xs acc) = S754_nan.
Proof.
  revert acc; induction xs as [|y xs IH]; intros acc Hin E; [destruct Hin|].
  destruct Hin as [->|Hin]; simpl.
  - apply sum_fold_nan_acc, add_nan_r, E.
  - apply IH; auto.
Qed.

Lemma sq_fold_nan_acc (avr : float) xs acc :
  Prim2SF acc = S754_nan ->
  Prim2SF (fold_left (fun acc x => acc + (x - avr) * (x - avr))%float xs acc) = S754_nan.
Proof.
  revert acc; induction xs as [|y ys IH]; intros acc E; simpl; auto.
  apply IH, add_nan_l, E.
Qed.

Lemma sum_sq_nan avr xs :
  Prim2SF avr = S754_nan -> xs <> [] -> Prim2SF (sum_sq avr xs) = S754_nan.
Proof.
  intros E Hne; destruct xs as [|x xs]; [congruence|].
  unfold sum_sq; simpl.
  apply sq_fold_nan_acc, add_nan_r, mul_nan, sub_nan_r, E.
Qed.

(** A NaN value makes both the mean and the variance NaN: it absorbs the
    running sum, the mean is then NaN, and so is every [x - mean]. *)
Theorem nan_poisons_average_dispersion src xs :
  values src = Ok xs -> (exists x, In x xs /\ PrimFloat.is_nan x = true) ->
  exists a d, average src = Ok a /\ dispersion src = Ok d /\
    PrimFloat.is_nan a = true /\ PrimFloat.is_nan d = true.
Proof.
  intros Hv (x & Hin & Hx); apply is_nan_Prim2SF in Hx.
  assert (Ha : Prim2SF (sum_of xs / as_f64 (List.length xs))%float = S754_nan)
    by (apply div_nan; unfold sum_of; exact (sum_fold_nan _ _ _ Hin Hx)).
  eexists; eexists; split; [apply (average_values _ _ Hv)|].
  split; [apply (dispersion_values _ _ Hv)|].
  split; apply is_nan_Prim2SF; [exact Ha|].
  apply div_nan, sum_sq_nan; [exact Ha|].
  intros ->; destruct Hin.
Qed.

Lemma nan_poisons_average_dispersion_witness :
  values (src_of "1 NaN 3") = Ok [1; nan; 3]%float /\
  exists a d, average (src_of "1 NaN 3") = Ok a /\ dispersion (src_of "1 NaN 3") = Ok d /\
    PrimFloat.is_nan a = true /\ PrimFloat.is_nan d = true.
Proof.
  assert (Hv : values (src_of "1 NaN 3") = Ok [1; nan; 3]%float)
    by (vm_compute; reflexivity).
  split; [exact Hv|].
  apply (nan_poisons_average_dispersion _ _ Hv).
  exists nan; split; [simpl; auto | vm_compute; reflexivity].
Defined.

Lemma add_inf_acc t acc y :
  inf_or_nan t (Prim2SF acc) -> inf_or_nan t (Prim2SF (acc + y)%float).
Proof.
  unfold inf_or_nan; rewrite FloatAxioms.add_spec; intros [E|E]; rewrite E;
    [|now right].
  destruct (Prim2SF y) as [s|s| |s m e]; destruct t; try destruct s; simpl; auto.
Qed.

Lemma add_inf_val t acc y :
  Prim2SF y = S754_infinity t -> inf_or_nan t (Prim2SF (acc + y)%float).
Proof.
  unfold inf_or_nan; rewrite FloatAxioms.add_spec; intros E; rewrite E.
  destruct (Prim2SF acc) as [s|s| |s m e]; destruct t; try destruct s; simpl; auto.
Qed.

Lemma sum_fold_inf t xs acc x :
  In x xs -> Prim2SF x = S754_infinity t ->
  inf_or_nan t (Prim2SF (fold_left (fun acc x => acc + x)%float xs acc)).
Proof.
  assert (Hacc : forall ys a, inf_or_nan t (Prim2SF a) ->
            inf_or_nan t (Prim2SF (fold_left (fun acc x => acc + x)%float ys a))).
  { induction ys as [|y ys IH]; intros a Ha; simpl; auto. apply IH, add_inf_acc, Ha. }
  revert acc; induction xs as [|y xs IH]; intros acc Hin E; [destruct Hin|].
  destruct Hin as [->|Hin]; simpl.
  - apply Hacc, add_inf_val, E.
  - apply IH; auto.
Qed.

Lemma div_inf t a b :
  inf_or_nan t (Prim2SF a) -> sf_sign_is false (Prim2SF b) ->
  inf_or_nan t (Prim2SF (a / b)%float).
Proof.
  unfold inf_or_nan; rewrite FloatAxioms.div_spec; intros [E|E] Hb; rewrite E;
    [|now right].
  destruct (Prim2SF b) as [s|s| |s m e]; simpl in Hb; try subst s; simpl; auto;
    rewrite xorb_false_r; auto.
Qed.

Lemma sub_inf t x avr :
  Prim2SF x = S754_infinity t -> inf_or_nan t (Prim2SF avr) ->
  Prim2SF (x - avr)%float = S754_nan.
Proof.
  rewrite FloatAxioms.sub_spec; intros E [Ea|Ea]; rewrite E, Ea;
    [destruct t; reflexivity | reflexivity].
Qed.

Lemma sum_sq_nan_at avr xs x :
  In x xs -> Prim2SF (x - avr)%float = S754_nan -> Prim2SF (sum_sq avr xs) = S754_nan.
Proof.
  unfold sum_sq; generalize 0%float as acc.
  induction xs as [|y xs IH]; intros acc Hin E; [destruct Hin|].
  destruct Hin as [->|Hin]; simpl.
  - apply sq_fold_nan_acc, add_nan_r, mul_nan, E.
  - apply IH; auto.
Qed.

(** An infinite value makes the variance NaN, and the mean is that infinity or
    NaN: the running sum stays at that infinity or becomes NaN, and then
    [x - mean] is NaN at that value. *)
Theorem infinite_value_average_dispersion src xs x :
  values src = Ok xs -> In x xs -> x = infinity \/ x = neg_infinity ->
  exists a d, average src = Ok a /\ dispersion src = Ok d /\
    (a = x \/ PrimFloat.is_nan a = true) /\ PrimFloat.is_nan d = true.
Proof.
  intros Hv Hin Hx.
  assert (Ex : exists t, Prim2SF x = S754_infinity t)
    by (destruct Hx as [-> | ->]; [exists false | exists true]; vm_compute; reflexivity).
  destruct Ex as (t & Ex).
  assert (Ha : inf_or_nan t (Prim2SF (sum_of xs / as_f64 (List.length xs))%float)).
  { apply div_inf; [exact (sum_fold_inf _ _ _ _ Hin Ex)|].
    apply pos_sign, as_f64_pos. }
  eexists; eexists; split; [apply (average_values _ _ Hv)|].
  split; [apply (dispersion_values _ _ Hv)|].
  split.
  - destruct Ha as [Ea|Ea].
    + left; apply FloatAxioms.Prim2SF_inj; congruence.
    + right; now apply is_nan_Prim2SF.
  - apply is_nan_Prim2SF, div_nan.
    exact (sum_sq_nan_at _ _ _ Hin (sub_inf _ _ _ Ex Ha)).
Qed.

Lemma infinite_value_average_dispersion_witness :
  values (src_of "1 -inf 3") = Ok [1; neg_infinity; 3]%float /\
  exists a d, average (src_of "1 -inf 3") = Ok a /\ dispersion (src_of "1 -inf 3") = Ok d /\
    (a = neg_infinity \/ PrimFloat.is_nan a = true) /\ PrimFloat.is_nan d = true.
Proof.
  assert (Hv : values (src_of "1 -inf 3") = Ok [1; neg_infinity; 3]%float)
    by (vm_compute; reflexivity).
  split; [exact Hv|].
  apply (infinite_value_average_dispersion _ _ neg_infinity Hv); simpl; auto.
Defined.

(* ================================================================== *)
(** * [main] *)

Lemma len_values src xs : values src = Ok xs -> len src = Ok (List.length xs).
Proof. intros Hv; unfold len; rewrite (for_file_ok _ _ _ _ Hv), fold_count; reflexivity. Qed.

Lemma tails_values src xs k :
  values src = Ok xs -> tails src k = Ok (firstn k xs, skipn (List.length xs - k) xs).
Proof. intros Hv; unfold tails; rewrite (for_file_ok _ _ _ _ Hv), tails_fold; reflexivity. Qed.

Lemma main_unfold_ok fuel src n mn mx a d m l r :
  len src = Ok n -> min_max src = Ok (Some (mn, mx)) -> average src = Ok a ->
  dispersion src = Ok d -> median fuel src = Some (Ok m) ->
  tails src 10000 = Ok (l, r) ->
  main fuel src [] =
    ([LEN_line n; MIN_MAX_line mn mx; AVERAGE_line a; DISPERSION_line d;
      MEDIAN_line m; LEFT_TAIL_line (firstn 10 l);
      RIGHT_TAIL_line (firstn 10 (rev r)); TIME_TOOK_line], Some (Ok tt)).
Proof.
  intros H1 H2 H3 H4 H5 H6.
  unfold main, io_bind, io_lift, println, expect, io_ret.
  rewrite H1, H2, H3, H4, H5, H6; reflexivity.
Qed.

Lemma main_unfold_stuck fuel src n mn mx a d :
  len src = Ok n -> min_max src = Ok (Some (mn, mx)) -> average src = Ok a ->
  dispersion src = Ok d -> median fuel src = None ->
  main fuel src [] =
    ([LEN_line n; MIN_MAX_line mn mx; AVERAGE_line a; DISPERSION_line d], None).
Proof.
  intros H1 H2 H3 H4 H5.
  unfold main, io_bind, io_lift, println, expect, io_ret.
  rewrite H1, H2, H3, H4, H5; reflexivity.
Qed.

Lemma median_some_min_max fuel src r :
  median fuel src = Some r -> (exists e, r = Err e) \/ (exists m, r = Panic m) \/
  exists mn mx, min_max src = Ok (Some (mn, mx)) /\ find_median fuel src mn mx = Some r.
Proof.
  unfold median; destruct (min_max src) as [[[mn mx]|]|e|m]; intros H; inversion H; subst; eauto 7.
Qed.

(** When the scan fails, [main] prints nothing and ends with the error of
    [len], its first statistic. *)
Theorem main_scan_error fuel src e :
  values src = Err e -> main fuel src [] = ([], Some (Err e)).
Proof.
  intros Hv; destruct (values_err_all _ _ Hv) as (_ & Hl & _).
  unfold main, io_bind, io_lift; rewrite Hl; reflexivity.
Qed.

Lemma main_scan_error_witness :
  values (src_of "1 2 x 4") = Err ParseFloatError /\
  main 10 (src_of "1 2 x 4") [] = ([], Some (Err ParseFloatError)).
Proof.
  assert (Hv : values (src_of "1 2 x 4") = Err ParseFloatError) by (vm_compute; reflexivity).
  split; [exact Hv | exact (main_scan_error 10 _ _ Hv)].
Defined.

(** On a file with no values, [main] prints the count 0 and then panics in
    its own [expect("no values")], before [median] is called. *)
Theorem main_no_values fuel src :
  values src = Ok [] -> main fuel src [] = ([LEN_line 0], Some (Panic "no values"%string)).
Proof.
  intros Hv; unfold main, io_bind, io_lift, println, expect.
  rewrite (len_values _ _ Hv), (min_max_values _ _ Hv); reflexivity.
Qed.

Lemma main_no_values_witness :
  values [] = Ok [] /\ main 10 [] [] = ([LEN_line 0], Some (Panic "no values"%string)).
Proof.
  assert (Hv : values [] = Ok []) by reflexivity.
  split; [exact Hv | exact (main_no_values 10 [] Hv)].
Defined.

(** When the median search returns [m], [main] prints, in order, the count,
    the minimum and maximum, the mean, the variance, [m], the first ten
    values in stream order, the last ten values most recent first, and the
    total time, and then succeeds. *)
Theorem main_report fuel src xs m :
  values src = Ok xs -> median fuel src = Some (Ok m) ->
  exists mn mx a d,
    min_max src = Ok (Some (mn, mx)) /\ average src = Ok a /\ dispersion src = Ok d /\
    main fuel src [] =
      ([LEN_line (List.length xs); MIN_MAX_line mn mx; AVERAGE_line a;
        DISPERSION_line d; MEDIAN_line m; LEFT_TAIL_line (firstn 10 xs);
        RIGHT_TAIL_line (firstn 10 (rev xs)); TIME_TOOK_line], Some (Ok tt)).
Proof.
  intros Hv Hm.
  destruct (median_some_min_max _ _ _ Hm) as [(e & E)|[(s & E)|(mn & mx & Hmm & _)]];
    try discriminate.
  exists mn, mx, (sum_of xs / as_f64 (List.length xs))%float,
    (sum_sq (sum_of xs / as_f64 (List.length xs)) xs / as_f64 (List.length xs))%float.
  split; [exact Hmm|]. split; [apply (average_values _ _ Hv)|].
  split; [apply (dispersion_values _ _ Hv)|].
  rewrite (main_unfold_ok _ _ _ _ _ _ _ _ _ _ (len_values _ _ Hv) Hmm
             (average_values _ _ Hv) (dispersion_values _ _ Hv) Hm (tails_values _ _ _ Hv)).
  rewrite firstn_firstn, <- firstn_rev, firstn_firstn; reflexivity.
Qed.

Lemma main_report_witness :
  values (src_of "1 2 3 4 5") = Ok [1; 2; 3; 4; 5]%float /\
  median 100 (src_of "1 2 3 4 5") = Some (Ok 2.9990234375%float) /\
  exists mn mx a d,
    min_max (src_of "1 2 3 4 5") = Ok (Some (mn, mx)) /\
    average (src_of "1 2 3 4 5") = Ok a /\ dispersion (src_of "1 2 3 4 5") = Ok d /\
    main 100 (src_of "1 2 3 4 5") [] =
      ([LEN_line (List.length [1; 2; 3; 4; 5]%float); MIN_MAX_line mn mx; AVERAGE_line a;
        DISPERSION_line d; MEDIAN_line 2.9990234375%float;
        LEFT_TAIL_line (firstn 10 [1; 2; 3; 4; 5]%float);
        RIGHT_TAIL_line (firstn 10 (rev [1; 2; 3; 4; 5]%float)); TIME_TOOK_line],
       Some (Ok tt)).
Proof.
  assert (Hv : values (src_of "1 2 3 4 5") = Ok [1; 2; 3; 4; 5]%float)
    by (vm_compute; reflexivity).
  assert (Hm : median 100 (src_of "1 2 3 4 5") = Some (Ok 2.9990234375%float))
    by (vm_compute; reflexivity).
  split; [exact Hv | split; [exact Hm | exact (main_report _ _ _ _ Hv Hm)]].
Defined.

(** When the median search does not return within [fuel] calls, [main] has
    printed the count, the minimum and maximum, the mean and the variance,
    and nothing after them. *)
Theorem main_median_stuck fuel src xs :
  values src = Ok xs -> median fuel src = None ->
  exists mn mx a d,
    min_max src = Ok (Some (mn, mx)) /\ average src = Ok a /\ dispersion src = Ok d /\
    main fuel src [] =
      ([LEN_line (List.length xs); MIN_MAX_line mn mx; AVERAGE_line a;
        DISPERSION_line d], None).
Proof.
  intros Hv Hm.
  assert (Hmm : exists mn mx, min_max src = Ok (Some (mn, mx))).
  { revert Hm; unfold median; destruct (min_max src) as [[[mn mx]|]|e|s];
      intros H; try discriminate; eauto. }
  destruct Hmm as (mn & mx & Hmm).
  exists mn, mx, (sum_of xs / as_f64 (List.length xs))%float,
    (sum_sq (sum_of xs / as_f64 (List.length xs)) xs / as_f64 (List.length xs))%float.
  split; [exact Hmm|]. split; [apply (average_values _ _ Hv)|].
  split; [apply (dispersion_values _ _ Hv)|].
  exact (main_unfold_stuck _ _ _ _ _ _ _ (len_values _ _ Hv) Hmm
           (average_values _ _ Hv) (dispersion_values _ _ Hv) Hm).
Qed.

Lemma main_median_stuck_witness :
  values (src_of "NaN") = Ok [nan] /\ median 20 (src_of "NaN") = None /\
  exists mn mx a d,
    min_max (src_of "NaN") = Ok (Some (mn, mx)) /\ average (src_of "NaN") = Ok a /\
    dispersion (src_of "NaN") = Ok d /\
    main 20 (src_of "NaN") [] =
      ([LEN_line (List.length [nan]); MIN_MAX_line mn mx; AVERAGE_line a;
        DISPERSION_line d], None).
Proof.
  assert (Hv : values (src_of "NaN") = Ok [nan]) by (vm_compute; reflexivity).
  assert (Hm : median 20 (src_of "NaN") = None) by (vm_compute; reflexivity).
  split; [exact Hv | split; [exact Hm | exact (main_median_stuck _ _ _ Hv Hm)]].
Defined.
